(** * iterator_fixup: completing the iterator requirements of a cursor type

    A shallow embedding of [fixup_iterators.cpp].  The program has two
    layers and so does this development:

    - a compile-time layer (module [Static]): the class template
      [iterator_fixup], the three detection traits of namespace [detail]
      and the function templates [fixup_iterator], [fixup_range] and
      [operator|] are functions from C++ types to C++ types that may
      fail with a diagnostic;
    - a run-time layer (module [Dynamic]): an [iterator_fixup<IterTy>]
      object is an [IterTy] base subobject and nothing else, its
      operators are the inherited ones, and objects live in a store. *)

From stdpp Require Import gmap strings list fin_maps.

Set Default Proof Using "Type".

(** ** The compile-time layer *)

Module Static.

(** The iterator category tags of <iterator>. *)
Inductive category_tag :=
| input_iterator_tag
| output_iterator_tag
| forward_iterator_tag
| bidirectional_iterator_tag
| random_access_iterator_tag.

(** The fragment of the C++ type language that the templates inspect.
    [TFixup t] is the specialisation [iterator_fixup<t>]; [TClass n] is
    a class declared in the translation unit under the name [n].
    Arrays, functions and [volatile] do not occur in the program and
    are left out. *)
Inductive cpp_type :=
| TVoid
| TBool
| TInt
| TPtrdiff                        (* std::ptrdiff_t *)
| TTag (c : category_tag)
| TClass (n : string)
| TFixup (IterTy : cpp_type)
| TIteratorRange (IteratorT : cpp_type)   (* boost::iterator_range<IteratorT> *)
| TConst (t : cpp_type)
| TPtr (t : cpp_type)
| TLRef (t : cpp_type)
| TRRef (t : cpp_type).

#[global] Instance category_tag_eq_dec : EqDecision category_tag.
Proof. solve_decision. Defined.

#[global] Instance cpp_type_eq_dec : EqDecision cpp_type.
Proof. solve_decision. Defined.

(** std::remove_reference_t *)
Definition remove_reference_t (t : cpp_type) : cpp_type :=
  match t with
  | TLRef a => a
  | TRRef a => a
  | _ => t
  end.

(** std::remove_cv_t: drops the top-level qualifier only. *)
Definition remove_cv_t (t : cpp_type) : cpp_type :=
  match t with
  | TConst a => a
  | _ => t
  end.

(** std::decay_t, on the types of this fragment. *)
Definition decay_t (t : cpp_type) : cpp_type :=
  remove_cv_t (remove_reference_t t).

(** The move constructor of a class: declared (by the user or
    implicitly) and usable, not declared, or deleted.  A deleted move
    constructor is chosen for a non-const rvalue and makes the
    initialisation ill-formed; without a declared one the copy
    constructor takes the rvalue. *)
Inductive special_member := declared | not_declared | deleted.

(** What a class shows to the templates: its member typedefs, the
    types of the calls of its member operators, the parameter lists of
    the constructors it declares itself, and how an object is
    initialised from another object of the class.

    [op_deref] and [op_arrow] are the types of the expressions
    [std::declval<T>().operator*()] and [std::declval<T>().operator->()]
    of lines 70 and 71: the member operator that overload resolution
    selects for a non-const rvalue of the class, [None] when that call
    is ill-formed (no such member, or only an [&]-qualified one).
    [op_deref_lvalue] and [op_arrow_lvalue] are the same calls on a
    non-const lvalue; the other operators are calls on an lvalue too.
    [copy_constructible] says that an object is initialised from a
    const lvalue of the class. *)
Record class_decl := ClassDecl {
  td_value_type : option cpp_type;
  td_difference_type : option cpp_type;
  td_reference : option cpp_type;
  td_pointer : option cpp_type;
  td_iterator_category : option cpp_type;
  op_deref : option cpp_type;          (* operator*() on an rvalue   *)
  op_arrow : option cpp_type;          (* operator->() on an rvalue  *)
  op_deref_lvalue : option cpp_type;   (* operator*() on an lvalue   *)
  op_arrow_lvalue : option cpp_type;   (* operator->() on an lvalue  *)
  op_preinc : option cpp_type;         (* operator++()  *)
  op_postinc : option cpp_type;        (* operator++(int) *)
  op_eq : option cpp_type;             (* operator==    *)
  op_ne : option cpp_type;             (* operator!=    *)
  user_ctors : list (list cpp_type);
  copy_constructible : bool;
  move_ctor : special_member
}.

Inductive compile_error :=
| not_a_class (t : cpp_type)
| not_a_base_class (t : cpp_type)     (* undeclared, incomplete, final, union *)
| no_member_deref (t : cpp_type)
| no_member_arrow (t : cpp_type)
| no_matching_constructor (t : cpp_type)
| deleted_copy_constructor (t : cpp_type)
| deleted_move_constructor (t : cpp_type)
| no_iterator_traits (t : cpp_type)
| conflicting_deduction (a b : cpp_type).

Abbreviation result := (sum compile_error).

#[global] Instance result_ret : MRet result := fun _ a => inr a.
#[global] Instance result_bind : MBind result := fun _ _ k m =>
  match m with
  | inl e => inl e
  | inr a => k a
  end.

Definition require {A} (o : option A) (e : compile_error) : result A :=
  match o with
  | Some a => inr a
  | None => inl e
  end.

(** *** namespace detail *)

(** [detail::inferred_value_type<IterTy, Reference>]: the partial
    specialisation is chosen when [typename IterTy::value_type] names a
    type, the primary template otherwise. *)
Definition inferred_value_type (IterTy : class_decl) (Reference : cpp_type)
  : cpp_type :=
  match td_value_type IterTy with
  | Some v => v
  | None => remove_reference_t Reference
  end.

(** [detail::inferred_difference_type<IterTy>] *)
Definition inferred_difference_type (IterTy : class_decl) : cpp_type :=
  match td_difference_type IterTy with
  | Some d => d
  | None => TPtrdiff
  end.

(** [detail::inferred_iterator_category<IterTy>] *)
Definition inferred_iterator_category (IterTy : class_decl) : cpp_type :=
  match td_iterator_category IterTy with
  | Some c => c
  | None => TTag input_iterator_tag
  end.

(** *** The class template iterator_fixup *)

(** The move constructor that the compiler generates for
    [iterator_fixup] moves the base when the base has a move
    constructor.  When the base has none it copies the base, and when
    the base has a deleted one it is itself defined as deleted and
    ignored by overload resolution: in both cases an rvalue
    [iterator_fixup] is taken by copying. *)
Definition implicit_move_ctor (base : special_member) : special_member :=
  match base with
  | declared => declared
  | _ => not_declared
  end.

(** The members of [iterator_fixup<IterTy>].  [base] is what the
    base-specifier [public IterTy] denotes and [decayed] is the class
    [decayed_type]; both are looked up by [class_of] below.  The
    alias declarations are instantiated with the class, so a missing
    [operator*] or [operator->] is an error here; the operators
    themselves are not declared by the template and are found in the
    base. *)
Definition iterator_fixup (IterTy : cpp_type)
    (base decayed : result class_decl) : result class_decl :=
  b ← base;
  d ← decayed;
  let decayed_type := decay_t IterTy in
  reference ← require (op_deref d) (no_member_deref decayed_type);
  pointer ← require (op_arrow d) (no_member_arrow decayed_type);
  mret {|
    td_value_type := Some (inferred_value_type d reference);
    td_difference_type := Some (inferred_difference_type d);
    td_reference := Some reference;
    td_pointer := Some pointer;
    td_iterator_category := Some (inferred_iterator_category d);
    op_deref := op_deref b;
    op_arrow := op_arrow b;
    op_deref_lvalue := op_deref_lvalue b;
    op_arrow_lvalue := op_arrow_lvalue b;
    op_preinc := op_preinc b;
    op_postinc := op_postinc b;
    op_eq := op_eq b;
    op_ne := op_ne b;
    user_ctors := [ [TLRef (TConst decayed_type)]; [TRRef decayed_type] ];
    copy_constructible := copy_constructible b;
    move_ctor := implicit_move_ctor (move_ctor b)
  |}.

Section TranslationUnit.

(** The classes of the translation unit that can be named as a base
    class, besides the specialisations of [iterator_fixup]: the
    complete classes that are neither final nor unions.  A class that
    is not in the table cannot be derived from. *)
Variable env : gmap string class_decl.

(** The declaration of a class type.  A base-specifier ignores the
    cv-qualifier of the type it names, hence [remove_cv_t] in the
    first argument of [iterator_fixup]; a reference, a pointer or a
    builtin type is not a class. *)
Fixpoint class_of (t : cpp_type) : result class_decl :=
  match t with
  | TClass n => require (env !! n) (not_a_base_class t)
  | TFixup IterTy =>
      iterator_fixup IterTy (class_of (remove_cv_t IterTy))
                            (class_of (decay_t IterTy))
  | _ => inl (not_a_class t)
  end.

End TranslationUnit.

(** *** Expressions and initialisation *)

Inductive value_category := lvalue | xvalue | prvalue.

(** An expression, as far as overload resolution looks at it: its
    type with the reference removed, and its value category. *)
Record expr := Expr { e_type : cpp_type; e_cat : value_category }.

Definition is_rvalue (e : expr) : bool :=
  match e_cat e with
  | lvalue => false
  | _ => true
  end.

Definition is_const (t : cpp_type) : bool :=
  match t with
  | TConst _ => true
  | _ => false
  end.

(** The expression that a call to a function returning [ret] is. *)
Definition call_expr (ret : cpp_type) : expr :=
  match ret with
  | TLRef a => Expr a lvalue
  | TRRef a => Expr a xvalue
  | _ => Expr ret prvalue
  end.

Inductive init_kind := by_copy | by_move.

(** Initialising an object of class [t] through its copy
    constructor. *)
Definition copy_init (t : cpp_type) (c : class_decl) : result init_kind :=
  if copy_constructible c then inr by_copy
  else inl (deleted_copy_constructor t).

(** Initialising an object of class [t] from an expression of the
    same class.  For a non-const rvalue overload resolution selects
    the move constructor when one is declared, also a deleted one,
    which is an error; everything else goes to the copy constructor. *)
Definition init_from_same (t : cpp_type) (c : class_decl)
    (arg_const arg_rvalue : bool) : result init_kind :=
  if arg_rvalue && negb arg_const then
    match move_ctor c with
    | declared => inr by_move
    | deleted => inl (deleted_move_constructor t)
    | not_declared => copy_init t c
    end
  else copy_init t c.

(** The two constructors that [iterator_fixup] declares. *)
Inductive fixup_ctor :=
| from_const_lvalue    (* iterator_fixup(const decayed_type &iter) *)
| from_rvalue.         (* iterator_fixup(decayed_type &&iter)      *)

(** Overload resolution between them for an argument of type
    [decayed_type]: the rvalue reference binds to a non-const rvalue
    only. *)
Definition select_ctor (arg : expr) : fixup_ctor :=
  if is_rvalue arg && negb (is_const (e_type arg)) then from_rvalue
  else from_const_lvalue.

(** Whether an object of the class is initialised from an rvalue of
    the class, const or not: the outcome of [init_from_same]. *)
Definition rvalue_initialisable (c : class_decl) (arg_const : bool) : bool :=
  if arg_const then copy_constructible c
  else match move_ctor c with
       | declared => true
       | not_declared => copy_constructible c
       | deleted => false
       end.

(** [std::iterator_traits] of a class (C++17): present when the class
    declares all five member typedefs. *)
Definition has_iterator_traits (c : class_decl) : bool :=
  bool_decide (is_Some (td_value_type c)) &&
  bool_decide (is_Some (td_difference_type c)) &&
  bool_decide (is_Some (td_reference c)) &&
  bool_decide (is_Some (td_pointer c)) &&
  bool_decide (is_Some (td_iterator_category c)).

(** A class without user-declared constructors has an implicit
    default constructor; one with user-declared constructors is
    default-constructible only through one that takes no argument. *)
Definition default_constructible (c : class_decl) : bool :=
  match user_ctors c with
  | [] => true
  | ctors => bool_decide ([] ∈ ctors)
  end.

(** Deduction of [IterTy] from the forwarding reference
    [IterTy &&iter]. *)
Definition deduce_forwarding (arg : expr) : cpp_type :=
  match e_cat arg with
  | lvalue => TLRef (e_type arg)
  | _ => e_type arg
  end.

(** [std::forward<IterTy>(iter)], that is [static_cast<IterTy&&>(iter)]. *)
Definition forward (IterTy : cpp_type) : expr :=
  match IterTy with
  | TLRef a => Expr a lvalue
  | _ => Expr (remove_reference_t IterTy) xvalue
  end.

(** A range type, as [fixup_range] uses it: the return types of
    [std::forward<RangeTy>(range).begin()] and [.end()]. *)
Record range_decl := RangeDecl { begin_ret : cpp_type; end_ret : cpp_type }.

(** [struct range_fixup_adaptor {}] *)
Inductive range_fixup_adaptor : Set := RangeFixupAdaptor.

(** *** Calls in a translation unit *)

Section Calls.

Variable env : gmap string class_decl.

(** What the selected constructor does to the base:
      [iterator_fixup(const decayed_type &iter) : IterTy{ iter }]
    initialises it from a const lvalue, and
      [iterator_fixup(decayed_type &&iter) : IterTy{ std::move(iter) }]
    from a non-const rvalue. *)
Definition init_base (t : cpp_type) (b : class_decl) (k : fixup_ctor)
  : result init_kind :=
  match k with
  | from_const_lvalue => init_from_same t b true false
  | from_rvalue => init_from_same t b false true
  end.

(** The initialisation [iterator_fixup<IterTy>(arg)]: one of the two
    declared constructors for an argument of type [decayed_type], and
    the implicit copy and move constructors for an argument that is
    itself an [iterator_fixup<IterTy>].  The result says how the base
    subobject is initialised. *)
Definition construct (IterTy : cpp_type) (arg : expr) : result init_kind :=
  let self := TFixup IterTy in
  cls ← class_of env self;
  b ← class_of env (remove_cv_t IterTy);
  let arg_type := remove_cv_t (e_type arg) in
  if decide (arg_type = decay_t IterTy) then
    init_base (remove_cv_t IterTy) b (select_ctor arg)
  else if decide (arg_type = self) then
    init_from_same self cls (is_const (e_type arg)) (is_rvalue arg)
  else inl (no_matching_constructor self).

(** The initialisation [T()] / [T{}] of a class of the table or of a
    specialisation of [iterator_fixup]. *)
Definition default_construct (t : cpp_type) : result expr :=
  c ← class_of env t;
  if default_constructible c then mret (Expr t prvalue)
  else inl (no_matching_constructor t).

(** *** fixup_iterator *)

Definition fixup_iterator (iter : expr) : result expr :=
  let IterTy := deduce_forwarding iter in
  _ ← construct IterTy (forward IterTy);
  mret (Expr (TFixup IterTy) prvalue).

(** *** fixup_range and the adaptor *)

(** Modelled from the spec: [boost::make_iterator_range] is library
    code that is not part of the sources.  The spec says only that the
    two bounds are packaged in the paired-bounds shape that the
    sequence library expects; the conditions below are those of the
    library's declaration: one template parameter [IteratorT] is
    deduced from both by-value arguments, and
    [boost::iterator_range<IteratorT>] copies the two bounds into its
    members and reads the iterator traits of [IteratorT].  A pointer has
    traits and is copied. *)
Definition make_iterator_range (Begin End : expr) : result cpp_type :=
  let b := remove_cv_t (e_type Begin) in
  let e := remove_cv_t (e_type End) in
  if decide (b = e) then
    match b with
    | TPtr _ => mret (TIteratorRange b)
    | _ =>
        c ← class_of env b;
        if negb (has_iterator_traits c) then inl (no_iterator_traits b)
        else if negb (copy_constructible c)
             then inl (deleted_copy_constructor b)
        else mret (TIteratorRange b)
    end
  else inl (conflicting_deduction b e).

Definition fixup_range (range : range_decl) : result cpp_type :=
  b ← fixup_iterator (call_expr (begin_ret range));
  e ← fixup_iterator (call_expr (end_ret range));
  make_iterator_range b e.

(** [operator|(RangeTy &&range, range_fixup_adaptor)] *)
Definition pipe (range : range_decl) (_ : range_fixup_adaptor)
  : result cpp_type :=
  fixup_range range.

End Calls.

(** *** The example classes of the program *)

Definition rvalue_iterator : class_decl := {|
  td_value_type := Some TInt;
  td_difference_type := Some TPtrdiff;
  td_reference := Some (TLRef TInt);
  td_pointer := Some (TPtr TInt);
  td_iterator_category := Some (TTag input_iterator_tag);
  op_deref := Some TInt;
  op_arrow := Some (TPtr TInt);
  op_deref_lvalue := Some TInt;
  op_arrow_lvalue := Some (TPtr TInt);
  op_preinc := Some (TLRef (TClass "rvalue_iterator"));
  op_postinc := Some (TClass "rvalue_iterator");
  op_eq := Some TBool;
  op_ne := Some TBool;
  user_ctors := [];
  copy_constructible := true;
  move_ctor := declared
|}.

Definition pointer_rvalue_iterator : class_decl := {|
  td_value_type := Some (TPtr TInt);
  td_difference_type := Some TPtrdiff;
  td_reference := Some (TLRef (TPtr TInt));
  td_pointer := Some (TPtr (TPtr TInt));
  td_iterator_category := Some (TTag input_iterator_tag);
  op_deref := Some (TPtr TInt);
  op_arrow := Some (TPtr (TPtr TInt));
  op_deref_lvalue := Some (TPtr TInt);
  op_arrow_lvalue := Some (TPtr (TPtr TInt));
  op_preinc := Some (TLRef (TClass "pointer_rvalue_iterator"));
  op_postinc := Some (TClass "pointer_rvalue_iterator");
  op_eq := Some TBool;
  op_ne := Some TBool;
  user_ctors := [];
  copy_constructible := true;
  move_ctor := declared
|}.

(** A cursor class that declares the six operators and no member
    typedef, to exercise the primary templates of namespace [detail]:
    its [operator*] returns [const int&]. *)
Definition bare_iterator : class_decl := {|
  td_value_type := None;
  td_difference_type := None;
  td_reference := None;
  td_pointer := None;
  td_iterator_category := None;
  op_deref := Some (TLRef (TConst TInt));
  op_arrow := Some (TPtr (TConst TInt));
  op_deref_lvalue := Some (TLRef (TConst TInt));
  op_arrow_lvalue := Some (TPtr (TConst TInt));
  op_preinc := Some (TLRef (TClass "bare_iterator"));
  op_postinc := Some (TClass "bare_iterator");
  op_eq := Some TBool;
  op_ne := Some TBool;
  user_ctors := [];
  copy_constructible := true;
  move_ctor := not_declared
|}.

Definition examples : gmap string class_decl :=
  <["rvalue_iterator" := rvalue_iterator]>
    (<["pointer_rvalue_iterator" := pointer_rvalue_iterator]>
      (<["bare_iterator" := bare_iterator]> ∅)).

(** [boost::iterator_range<IteratorT>]: [begin()] and [end()] return
    the iterator by value. *)
Definition iterator_range (IteratorT : cpp_type) : range_decl :=
  {| begin_ret := IteratorT; end_ret := IteratorT |}.

(** The type of [fixup_iterator(... fixup_iterator(it) ...)] with [n]
    calls, for [it] of type [T]. *)
Fixpoint nested_fixup (n : nat) (T : cpp_type) : cpp_type :=
  match n with
  | O => T
  | S k => TFixup (nested_fixup k T)
  end.

End Static.

(** ** The run-time layer *)

Module Dynamic.

(** An object of class [iterator_fixup<IterTy>]: the class declares no
    data member, so the object is its [IterTy] base subobject. *)
Record iterator_fixup (IterTy : Type) := Fixup { base : IterTy }.
Arguments Fixup {IterTy} _.
Arguments base {IterTy} _.

Section Cursor.

(** What the operators of the cursor class return. *)
Context {V P Rpre Rpost : Type}.

(** The member functions of a cursor class whose objects are the
    values of [IterTy].  A member function acts on the object it is
    called on: it maps the state of [*this] to the new state and the
    result.  The comparison operators take their right operand by
    value.  Copying duplicates the value, and so does moving for the
    new object; [moved_from] is what a move leaves in its source, and
    is [None] for a class that declares no move constructor. *)
Record cursor_ops (IterTy : Type) := CursorOps {
  star : IterTy -> IterTy * V;             (* operator*()     *)
  arrow : IterTy -> IterTy * P;            (* operator->()    *)
  pre_inc : IterTy -> IterTy * Rpre;       (* operator++()    *)
  post_inc : IterTy -> IterTy * Rpost;     (* operator++(int) *)
  equal : IterTy -> IterTy -> bool;        (* operator==      *)
  not_equal : IterTy -> IterTy -> bool;    (* operator!=      *)
  moved_from : option (IterTy -> IterTy)
}.
Arguments star {IterTy} _ _.
Arguments arrow {IterTy} _ _.
Arguments pre_inc {IterTy} _ _.
Arguments post_inc {IterTy} _ _.
Arguments equal {IterTy} _ _ _.
Arguments not_equal {IterTy} _ _ _.
Arguments moved_from {IterTy} _.

Section Fixup.

Context {IterTy : Type} (ops : cursor_ops IterTy).

(** [iterator_fixup(const decayed_type &iter) : IterTy{ iter }] *)
Definition from_copy (iter : IterTy) : iterator_fixup IterTy :=
  Fixup iter.

(** [iterator_fixup(decayed_type &&iter) : IterTy{ std::move(iter) }]:
    the new object and what is left of [iter].  Without a move
    constructor the initialisation binds to the copy constructor. *)
Definition from_move (iter : IterTy)
  : iterator_fixup IterTy * IterTy :=
  match moved_from ops with
  | Some leave => (Fixup iter, leave iter)
  | None => (Fixup iter, iter)
  end.

(** A member function of [IterTy] called on an [iterator_fixup]
    object runs on the base subobject. *)
Definition inherited {R} (m : IterTy -> IterTy * R)
    (w : iterator_fixup IterTy) : iterator_fixup IterTy * R :=
  let '(b, r) := m (base w) in (Fixup b, r).

(** A by-value parameter of type [IterTy] is initialised from an
    [iterator_fixup] argument by copying its base subobject. *)
Definition inherited_cmp (cmp : IterTy -> IterTy -> bool)
    (w1 w2 : iterator_fixup IterTy) : bool :=
  cmp (base w1) (base w2).

(** The implicit move constructor of [iterator_fixup] moves the
    base. *)
Definition implicit_moved_from (leave : IterTy -> IterTy)
    (w : iterator_fixup IterTy) : iterator_fixup IterTy :=
  Fixup (leave (base w)).

(** The operators of [iterator_fixup<IterTy>]: all inherited. *)
Definition fixup_ops : cursor_ops (iterator_fixup IterTy) := {|
  star := inherited (star ops);
  arrow := inherited (arrow ops);
  pre_inc := inherited (pre_inc ops);
  post_inc := inherited (post_inc ops);
  equal := inherited_cmp (equal ops);
  not_equal := inherited_cmp (not_equal ops);
  moved_from := implicit_moved_from <$> moved_from ops
|}.

(** [fixup_iterator] called on a temporary. *)
Definition fixup_iterator (iter : IterTy) : iterator_fixup IterTy :=
  (from_move iter).1.

End Fixup.

(** *** Programs over one cursor object *)

Inductive advance_kind := pre_increment | post_increment.

Inductive step :=
| do_star
| do_arrow
| do_advance (k : advance_kind).

Inductive event :=
| ev_star (v : V)
| ev_arrow (p : P)
| ev_pre (r : Rpre)
| ev_post (r : Rpost).

Section Run.

Context {IterTy : Type} (ops : cursor_ops IterTy).

Definition advance (k : advance_kind) (it : IterTy) : IterTy * event :=
  match k with
  | pre_increment => let '(it', r) := pre_inc ops it in (it', ev_pre r)
  | post_increment => let '(it', r) := post_inc ops it in (it', ev_post r)
  end.

Definition exec (s : step) (it : IterTy) : IterTy * event :=
  match s with
  | do_star => let '(it', v) := star ops it in (it', ev_star v)
  | do_arrow => let '(it', p) := arrow ops it in (it', ev_arrow p)
  | do_advance k => advance k it
  end.

(** Runs the steps in order on the object; the results in order. *)
Fixpoint run (prog : list step) (it : IterTy) : IterTy * list event :=
  match prog with
  | [] => (it, [])
  | s :: prog' =>
      let '(it1, e) := exec s it in
      let '(it2, es) := run prog' it1 in
      (it2, e :: es)
  end.

(** Reads the cursor, then advances and reads again for every
    element of [advs]: the values read. *)
Fixpoint readings (advs : list advance_kind) (it : IterTy) : list V :=
  let '(it1, v) := star ops it in
  match advs with
  | [] => [v]
  | k :: advs' => v :: readings advs' (advance k it1).1
  end.

End Run.

(** *** Objects in a store *)

Section Store.

Context {IterTy : Type} (ops : cursor_ops IterTy).

(** The objects of the two classes, at their addresses. *)
Inductive object :=
| plain (it : IterTy)
| fixed (w : iterator_fixup IterTy).

(** [iterator_fixup<IterTy> w(c);] with [c] the lvalue at [l]:
    a new object, initialised through the copying constructor. *)
Definition new_from_copy (l : nat) (σ : gmap nat object)
  : option (nat * gmap nat object) :=
  match σ !! l with
  | Some (plain c) =>
      let l' := fresh (dom σ) in
      Some (l', <[l' := fixed (from_copy c)]> σ)
  | _ => None
  end.

(** [iterator_fixup<IterTy> w(std::move(c));]: the moving
    constructor, which also writes what the move leaves in [c]. *)
Definition new_from_move (l : nat) (σ : gmap nat object)
  : option (nat * gmap nat object) :=
  match σ !! l with
  | Some (plain c) =>
      let l' := fresh (dom σ) in
      let '(w, c') := from_move ops c in
      Some (l', <[l' := fixed w]> (<[l := plain c']> σ))
  | _ => None
  end.

(** One step on the object at [l], in place. *)
Definition exec_at (s : step) (l : nat) (σ : gmap nat object)
  : option (event * gmap nat object) :=
  match σ !! l with
  | Some (plain c) =>
      let '(c', e) := exec ops s c in Some (e, <[l := plain c']> σ)
  | Some (fixed w) =>
      let '(w', e) := exec (fixup_ops ops) s w in
      Some (e, <[l := fixed w']> σ)
  | None => None
  end.

Fixpoint run_at (prog : list step) (l : nat) (σ : gmap nat object)
  : option (list event * gmap nat object) :=
  match prog with
  | [] => Some ([], σ)
  | s :: prog' =>
      '(e, σ1) ← exec_at s l σ;
      '(es, σ2) ← run_at prog' l σ1;
      Some (e :: es, σ2)
  end.

End Store.

End Cursor.

Arguments star {V P Rpre Rpost IterTy} _ _.
Arguments arrow {V P Rpre Rpost IterTy} _ _.
Arguments pre_inc {V P Rpre Rpost IterTy} _ _.
Arguments post_inc {V P Rpre Rpost IterTy} _ _.
Arguments equal {V P Rpre Rpost IterTy} _ _ _.
Arguments not_equal {V P Rpre Rpost IterTy} _ _ _.
Arguments moved_from {V P Rpre Rpost IterTy} _.

(** *** Ranges *)

Section Range.

Context {V P Rpre Rpost : Type} {IterTy : Type}.
Context (ops : @cursor_ops V P Rpre Rpost IterTy).

(** [boost::iterator_range<IteratorT>] holds its two bounds. *)
Record iterator_range (IteratorT : Type) :=
  IteratorRange { range_begin : IteratorT; range_end : IteratorT }.
Arguments IteratorRange {IteratorT} _ _.
Arguments range_begin {IteratorT} _.
Arguments range_end {IteratorT} _.

(** [boost::make_iterator_range(Begin, End)] *)
Definition make_iterator_range {IteratorT} (Begin End : IteratorT)
  : iterator_range IteratorT :=
  IteratorRange Begin End.

(** [fixup_range]: [begin()] and [end()] return temporaries. *)
Definition fixup_range (range : iterator_range IterTy)
  : iterator_range (iterator_fixup IterTy) :=
  make_iterator_range (fixup_iterator ops (range_begin range))
                      (fixup_iterator ops (range_end range)).

(** [operator|(RangeTy &&range, range_fixup_adaptor)] *)
Definition pipe (range : iterator_range IterTy)
    (_ : Static.range_fixup_adaptor)
  : iterator_range (iterator_fixup IterTy) :=
  fixup_range range.

End Range.

Arguments IteratorRange {IteratorT} _ _.
Arguments range_begin {IteratorT} _.
Arguments range_end {IteratorT} _.

(** *** The example class [rvalue_iterator] *)

(** Its only data member is [x]; [operator++] returns the object
    itself and [operator->] the address of [x] in it, which are
    rendered here by the state they designate. *)
Record rvalue_iterator := RvalueIterator { x : Z }.

Definition rvalue_iterator_ops
  : @cursor_ops Z Z rvalue_iterator rvalue_iterator rvalue_iterator := {|
  star := fun it => (it, 1%Z);
  arrow := fun it => (it, x it);
  pre_inc := fun it => (it, it);
  post_inc := fun it => (it, it);
  equal := fun _ _ => true;
  not_equal := fun _ _ => false;
  moved_from := Some (fun it => it)
|}.

(** *** The example class [pointer_rvalue_iterator] *)

(** Its only data member is the pointer [x] (named [xp] here, an
    address); [operator*] returns the pointer, and [operator->] and
    [operator++] are rendered as for [rvalue_iterator]. *)
Record pointer_rvalue_iterator := PointerRvalueIterator { xp : Z }.

Definition pointer_rvalue_iterator_ops
  : @cursor_ops Z Z pointer_rvalue_iterator pointer_rvalue_iterator
                pointer_rvalue_iterator := {|
  star := fun it => (it, xp it);
  arrow := fun it => (it, xp it);
  pre_inc := fun it => (it, it);
  post_inc := fun it => (it, it);
  equal := fun _ _ => true;
  not_equal := fun _ _ => false;
  moved_from := Some (fun it => it)
|}.

(** A cursor that counts upwards from its position, to exercise
    advancing: [*it] is the position, [++it] returns the new position
    and [it++] the old one. *)
Definition counting_ops : @cursor_ops nat nat nat nat nat := {|
  star := fun n => (n, n);
  arrow := fun n => (n, n);
  pre_inc := fun n => (S n, S n);
  post_inc := fun n => (S n, n);
  equal := Nat.eqb;
  not_equal := fun a b => negb (Nat.eqb a b);
  moved_from := None
|}.

End Dynamic.

(** * Properties *)

Import Static.

(** ** Instantiating iterator_fixup *)

Section Instantiation.

Variable env : gmap string class_decl.

(** A type that names a class is no reference: [decayed_type] is then
    the class that the base-specifier denotes. *)
Lemma decay_of_class IterTy b :
  class_of env (remove_cv_t IterTy) = inr b →
  decay_t IterTy = remove_cv_t IterTy.
Proof.
  destruct IterTy; simpl; try reflexivity; discriminate.
Qed.

Lemma class_of_fixup_unfold IterTy :
  class_of env (TFixup IterTy) =
  iterator_fixup IterTy (class_of env (remove_cv_t IterTy))
                        (class_of env (decay_t IterTy)).
Proof. reflexivity. Qed.

(** The specialisation of a class with both dereference operators
    is well-formed, and these are its members. *)
Lemma class_of_fixup_intro IterTy b r p :
  class_of env (remove_cv_t IterTy) = inr b →
  op_deref b = Some r →
  op_arrow b = Some p →
  class_of env (TFixup IterTy) = inr {|
    td_value_type := Some (inferred_value_type b r);
    td_difference_type := Some (inferred_difference_type b);
    td_reference := Some r;
    td_pointer := Some p;
    td_iterator_category := Some (inferred_iterator_category b);
    op_deref := Some r;
    op_arrow := Some p;
    op_deref_lvalue := op_deref_lvalue b;
    op_arrow_lvalue := op_arrow_lvalue b;
    op_preinc := op_preinc b;
    op_postinc := op_postinc b;
    op_eq := op_eq b;
    op_ne := op_ne b;
    user_ctors := [ [TLRef (TConst (remove_cv_t IterTy))];
                    [TRRef (remove_cv_t IterTy)] ];
    copy_constructible := copy_constructible b;
    move_ctor := implicit_move_ctor (move_ctor b)
  |}.
Proof.
  intros Hb Hr Hp.
  rewrite class_of_fixup_unfold, (decay_of_class _ _ Hb), Hb.
  unfold iterator_fixup; simpl.
  rewrite (decay_of_class _ _ Hb), Hr, Hp. reflexivity.
Qed.

(** Conversely a well-formed specialisation comes from such a class. *)
Lemma class_of_fixup_inv IterTy cls :
  class_of env (TFixup IterTy) = inr cls →
  ∃ b r p,
    class_of env (remove_cv_t IterTy) = inr b ∧
    op_deref b = Some r ∧
    op_arrow b = Some p.
Proof.
  rewrite class_of_fixup_unfold. unfold iterator_fixup.
  destruct (class_of env (remove_cv_t IterTy)) as [e|b] eqn:Hb;
    simpl; [discriminate|].
  rewrite (decay_of_class _ _ Hb), Hb; simpl.
  destruct (op_deref b) as [r|] eqn:Hr; simpl; [|discriminate].
  destruct (op_arrow b) as [p|] eqn:Hp; simpl; [|discriminate].
  intros _. by exists b, r, p.
Qed.

(** A reference is no base class: the specialisation at a reference
    type is ill-formed whatever it refers to. *)
Lemma class_of_fixup_lref t :
  class_of env (TFixup (TLRef t)) = inl (not_a_class (TLRef t)).
Proof. reflexivity. Qed.

End Instantiation.

(** ** The metadata of the wrapped cursor *)

(** C1: for a cursor class with an [operator*] returning [r] and an
    [operator->] returning [p], [iterator_fixup<IterTy>] is well-formed
    and its [reference] is [r] and its [pointer] is [p], whatever
    [reference] and [pointer] the cursor class declares itself. *)
Theorem reference_pointer_from_operators env IterTy d r p :
  class_of env (remove_cv_t IterTy) = inr d →
  op_deref d = Some r →
  op_arrow d = Some p →
  ∃ cls,
    class_of env (TFixup IterTy) = inr cls ∧
    class_of env (decay_t IterTy) = inr d ∧
    td_reference cls = Some r ∧
    td_pointer cls = Some p.
Proof.
  intros Hd Hr Hp.
  eexists. split; [by apply (class_of_fixup_intro env IterTy d r p)|].
  rewrite (decay_of_class env _ _ Hd). by repeat split.
Qed.

(** [rvalue_iterator] declares [reference = int&] while its
    [operator*] returns [int]. *)
Lemma reference_pointer_from_operators_witness :
  td_reference rvalue_iterator = Some (TLRef TInt) ∧
  ∃ cls,
    class_of examples (TFixup (TClass "rvalue_iterator")) = inr cls ∧
    class_of examples (decay_t (TClass "rvalue_iterator"))
      = inr rvalue_iterator ∧
    td_reference cls = Some TInt ∧
    td_pointer cls = Some (TPtr TInt).
Proof.
  split; [reflexivity|].
  apply (reference_pointer_from_operators examples
           (TClass "rvalue_iterator") rvalue_iterator TInt (TPtr TInt));
    reflexivity.
Defined.

(** C2: the [value_type] of [iterator_fixup<IterTy>] is the
    [value_type] that the cursor class declares when it declares one,
    and otherwise the wrapper's [reference] with the reference
    removed. *)
Theorem value_type_declared_or_inferred env IterTy d r p :
  class_of env (remove_cv_t IterTy) = inr d →
  op_deref d = Some r →
  op_arrow d = Some p →
  ∃ cls,
    class_of env (TFixup IterTy) = inr cls ∧
    td_reference cls = Some r ∧
    (∀ v, td_value_type d = Some v → td_value_type cls = Some v) ∧
    (td_value_type d = None →
     td_value_type cls = Some (remove_reference_t r)).
Proof.
  intros Hd Hr Hp.
  eexists. split; [by apply (class_of_fixup_intro env IterTy d r p)|].
  simpl. unfold inferred_value_type.
  split; [done|]. split; [intros v Hv|intros Hv]; by rewrite Hv.
Qed.

(** The cursor [rvalue_iterator] declares [value_type = int]. *)
Lemma value_type_declared_or_inferred_witness :
  ∃ cls,
    class_of examples (TFixup (TClass "rvalue_iterator")) = inr cls ∧
    td_reference cls = Some TInt ∧
    (∀ v, td_value_type rvalue_iterator = Some v →
          td_value_type cls = Some v) ∧
    (td_value_type rvalue_iterator = None →
     td_value_type cls = Some (remove_reference_t TInt)).
Proof.
  apply (value_type_declared_or_inferred examples
           (TClass "rvalue_iterator") rvalue_iterator TInt (TPtr TInt));
    reflexivity.
Defined.

(** C6: the [difference_type] of [iterator_fixup<IterTy>] is the one
    the cursor class declares when it declares one, and
    [std::ptrdiff_t] otherwise. *)
Theorem difference_type_declared_or_ptrdiff env IterTy d r p :
  class_of env (remove_cv_t IterTy) = inr d →
  op_deref d = Some r →
  op_arrow d = Some p →
  ∃ cls,
    class_of env (TFixup IterTy) = inr cls ∧
    (∀ t, td_difference_type d = Some t →
          td_difference_type cls = Some t) ∧
    (td_difference_type d = None →
     td_difference_type cls = Some TPtrdiff).
Proof.
  intros Hd Hr Hp.
  eexists. split; [by apply (class_of_fixup_intro env IterTy d r p)|].
  simpl. unfold inferred_difference_type.
  split; [intros t Ht|intros Ht]; by rewrite Ht.
Qed.

(** C5: the [iterator_category] of [iterator_fixup<IterTy>] is the tag
    the cursor class declares when it declares one, and
    [std::input_iterator_tag] otherwise. *)
Theorem iterator_category_declared_or_input env IterTy d r p :
  class_of env (remove_cv_t IterTy) = inr d →
  op_deref d = Some r →
  op_arrow d = Some p →
  ∃ cls,
    class_of env (TFixup IterTy) = inr cls ∧
    (∀ t, td_iterator_category d = Some t →
          td_iterator_category cls = Some t) ∧
    (td_iterator_category d = None →
     td_iterator_category cls = Some (TTag input_iterator_tag)).
Proof.
  intros Hd Hr Hp.
  eexists. split; [by apply (class_of_fixup_intro env IterTy d r p)|].
  simpl. unfold inferred_iterator_category.
  split; [intros t Ht|intros Ht]; by rewrite Ht.
Qed.

(** The cursor [bare_iterator] declares no [difference_type]. *)
Lemma difference_type_declared_or_ptrdiff_witness :
  ∃ cls,
    class_of examples (TFixup (TClass "bare_iterator")) = inr cls ∧
    (∀ t, td_difference_type bare_iterator = Some t →
          td_difference_type cls = Some t) ∧
    (td_difference_type bare_iterator = None →
     td_difference_type cls = Some TPtrdiff).
Proof.
  apply (difference_type_declared_or_ptrdiff examples
           (TClass "bare_iterator") bare_iterator
           (TLRef (TConst TInt)) (TPtr (TConst TInt)));
    reflexivity.
Defined.

(** The cursor [bare_iterator] declares no [iterator_category]. *)
Lemma iterator_category_declared_or_input_witness :
  ∃ cls,
    class_of examples (TFixup (TClass "bare_iterator")) = inr cls ∧
    (∀ t, td_iterator_category bare_iterator = Some t →
          td_iterator_category cls = Some t) ∧
    (td_iterator_category bare_iterator = None →
     td_iterator_category cls = Some (TTag input_iterator_tag)).
Proof.
  apply (iterator_category_declared_or_input examples
           (TClass "bare_iterator") bare_iterator
           (TLRef (TConst TInt)) (TPtr (TConst TInt)));
    reflexivity.
Defined.

(** The two scenarios of the example classes, evaluated. *)
Example fixup_rvalue_iterator :
  class_of examples (TFixup (TClass "rvalue_iterator")) = inr {|
    td_value_type := Some TInt;
    td_difference_type := Some TPtrdiff;
    td_reference := Some TInt;
    td_pointer := Some (TPtr TInt);
    td_iterator_category := Some (TTag input_iterator_tag);
    op_deref := Some TInt;
    op_arrow := Some (TPtr TInt);
    op_deref_lvalue := Some TInt;
    op_arrow_lvalue := Some (TPtr TInt);
    op_preinc := Some (TLRef (TClass "rvalue_iterator"));
    op_postinc := Some (TClass "rvalue_iterator");
    op_eq := Some TBool;
    op_ne := Some TBool;
    user_ctors := [ [TLRef (TConst (TClass "rvalue_iterator"))];
                    [TRRef (TClass "rvalue_iterator")] ];
    copy_constructible := true;
    move_ctor := declared
  |}.
Proof. reflexivity. Qed.

Example fixup_pointer_rvalue_iterator :
  ∃ cls,
    class_of examples (TFixup (TClass "pointer_rvalue_iterator")) = inr cls ∧
    td_reference cls = Some (TPtr TInt) ∧
    td_pointer cls = Some (TPtr (TPtr TInt)) ∧
    td_value_type cls = Some (TPtr TInt).
Proof. eexists. by repeat split. Qed.

Example fixup_bare_iterator :
  ∃ cls,
    class_of examples (TFixup (TClass "bare_iterator")) = inr cls ∧
    td_reference cls = Some (TLRef (TConst TInt)) ∧
    td_value_type cls = Some (TConst TInt) ∧
    td_difference_type cls = Some TPtrdiff ∧
    td_iterator_category cls = Some (TTag input_iterator_tag).
Proof. eexists. by repeat split. Qed.

(** A class without [operator->], a class whose [operator*] is
    [&]-qualified and so not callable on an rvalue, a pointer, and a
    class that is not in the table have no specialisation. *)
Example fixup_ill_formed :
  class_of (<["no_arrow" := ClassDecl None None None None None
                              (Some TInt) None (Some TInt) None
                              None None None None
                              [] true declared]> examples)
           (TFixup (TClass "no_arrow"))
    = inl (no_member_arrow (TClass "no_arrow")) ∧
  class_of (<["lvalue_only" := ClassDecl None None None None None
                              None (Some (TPtr TInt))
                              (Some (TLRef TInt)) (Some (TPtr TInt))
                              None None None None
                              [] true declared]> examples)
           (TFixup (TClass "lvalue_only"))
    = inl (no_member_deref (TClass "lvalue_only")) ∧
  class_of examples (TFixup (TPtr TInt)) = inl (not_a_class (TPtr TInt)) ∧
  class_of examples (TFixup (TClass "undeclared"))
    = inl (not_a_base_class (TClass "undeclared")).
Proof. repeat split. Qed.

(** ** Construction *)

(** C8: a well-formed [iterator_fixup<IterTy>] declares two
    constructors, each with one parameter, so it has no default
    constructor and [iterator_fixup<IterTy>()] is ill-formed. *)
Theorem no_default_construction env IterTy cls :
  class_of env (TFixup IterTy) = inr cls →
  default_constructible cls = false ∧
  default_construct env (TFixup IterTy)
    = inl (no_matching_constructor (TFixup IterTy)).
Proof.
  intros Hcls.
  assert (default_constructible cls = false) as Hno.
  { destruct (class_of_fixup_inv env _ _ Hcls) as (b & r & p & Hb & Hr & Hp).
    rewrite (class_of_fixup_intro env IterTy b r p Hb Hr Hp) in Hcls.
    injection Hcls as <-. reflexivity. }
  split; [done|].
  unfold default_construct. rewrite Hcls. simpl. by rewrite Hno.
Qed.

Lemma no_default_construction_witness :
  ∃ cls,
    class_of examples (TFixup (TClass "rvalue_iterator")) = inr cls ∧
    default_constructible cls = false ∧
    default_construct examples (TFixup (TClass "rvalue_iterator"))
      = inl (no_matching_constructor (TFixup (TClass "rvalue_iterator"))).
Proof.
  eexists. split; [reflexivity|].
  apply (no_default_construction examples (TClass "rvalue_iterator")).
  reflexivity.
Defined.

(** The cursor class itself, an aggregate, is default-constructible. *)
Example rvalue_iterator_default_constructible :
  default_construct examples (TClass "rvalue_iterator")
    = inr (Expr (TClass "rvalue_iterator") prvalue).
Proof. reflexivity. Qed.

(** ** fixup_iterator *)

Section FixupIterator.

Variable env : gmap string class_decl.

(** For an lvalue argument [IterTy] is deduced as a reference, which is
    no base class. *)
Lemma fixup_iterator_lvalue t :
  fixup_iterator env (Expr t lvalue) = inl (not_a_class (TLRef t)).
Proof. reflexivity. Qed.

Lemma init_from_same_rvalue t c arg_const :
  rvalue_initialisable c arg_const = true ↔
  ∃ k, init_from_same t c arg_const (negb arg_const) = inr k.
Proof.
  unfold rvalue_initialisable, init_from_same, copy_init.
  destruct arg_const, (move_ctor c), (copy_constructible c); simpl;
    split; intros H; try done; eauto; by destruct H.
Qed.

Lemma forward_temporary t b :
  class_of env (remove_cv_t t) = inr b →
  forward t = Expr t xvalue.
Proof. destruct t; simpl; try reflexivity; discriminate. Qed.

(** The initialisation from an argument of the cursor class, once
    the specialisation is known to be well-formed. *)
Lemma construct_unfold_same IterTy b cls arg :
  class_of env (TFixup IterTy) = inr cls →
  class_of env (remove_cv_t IterTy) = inr b →
  remove_cv_t (e_type arg) = remove_cv_t IterTy →
  construct env IterTy arg =
    init_base (remove_cv_t IterTy) b (select_ctor arg).
Proof.
  intros Hcls Hb Harg. unfold construct. rewrite Hcls, Hb; simpl.
  rewrite (decay_of_class env _ _ Hb), Harg.
  by rewrite decide_True by reflexivity.
Qed.

Lemma init_base_temporary t b :
  init_base (remove_cv_t t) b (select_ctor (Expr t xvalue))
  = init_from_same (remove_cv_t t) b (is_const t) (negb (is_const t)).
Proof. unfold select_ctor. simpl. by destruct (is_const t). Qed.

(** A temporary of a cursor class with both dereference operators is
    accepted when the class can be initialised from it. *)
Lemma construct_temporary_accepted t b r p :
  class_of env (remove_cv_t t) = inr b →
  op_deref b = Some r →
  op_arrow b = Some p →
  rvalue_initialisable b (is_const t) = true →
  ∃ k, construct env t (Expr t xvalue) = inr k.
Proof.
  intros Hb Hr Hp Hinit.
  rewrite (construct_unfold_same t b _ (Expr t xvalue)
             (class_of_fixup_intro env t b r p Hb Hr Hp) Hb eq_refl).
  rewrite init_base_temporary.
  by apply init_from_same_rvalue.
Qed.

Lemma fixup_iterator_temporary t cat b r p :
  cat ≠ lvalue →
  class_of env (remove_cv_t t) = inr b →
  op_deref b = Some r →
  op_arrow b = Some p →
  rvalue_initialisable b (is_const t) = true →
  fixup_iterator env (Expr t cat) = inr (Expr (TFixup t) prvalue).
Proof.
  intros Hcat Hb Hr Hp Hinit. unfold fixup_iterator.
  assert (deduce_forwarding (Expr t cat) = t) as ->
    by (destruct cat; [done | reflexivity | reflexivity]).
  rewrite (forward_temporary _ _ Hb).
  by destruct (construct_temporary_accepted t b r p Hb Hr Hp Hinit) as [k ->].
Qed.

(** An accepted initialisation comes from a well-formed
    specialisation. *)
Lemma construct_inv IterTy arg k :
  construct env IterTy arg = inr k →
  ∃ cls b,
    class_of env (TFixup IterTy) = inr cls ∧
    class_of env (remove_cv_t IterTy) = inr b.
Proof.
  unfold construct.
  destruct (class_of env (TFixup IterTy)) as [e|cls]; [discriminate|].
  destruct (class_of env (remove_cv_t IterTy)) as [e|b]; [discriminate|].
  intros _. by exists cls, b.
Qed.

(** What an accepted call says about its argument. *)
Lemma fixup_iterator_inv iter w :
  fixup_iterator env iter = inr w →
  ∃ cls b,
    w = Expr (TFixup (e_type iter)) prvalue ∧
    e_cat iter ≠ lvalue ∧
    class_of env (TFixup (e_type iter)) = inr cls ∧
    class_of env (remove_cv_t (e_type iter)) = inr b ∧
    rvalue_initialisable b (is_const (e_type iter)) = true.
Proof.
  destruct iter as [t cat]. destruct cat.
  { rewrite fixup_iterator_lvalue. discriminate. }
  all: unfold fixup_iterator;
    change (deduce_forwarding _) with t;
    destruct (construct env t (forward t)) as [e|k] eqn:Hk;
      [discriminate|];
    destruct (construct_inv _ _ _ Hk) as (cls & b & Hcls & Hb);
    intros Hw; injection Hw as <-;
    exists cls, b; repeat split; auto; try discriminate;
    cbn [e_type];
    rewrite (forward_temporary _ _ Hb) in Hk;
    rewrite (construct_unfold_same t b cls (Expr t xvalue) Hcls Hb eq_refl)
      in Hk;
    rewrite init_base_temporary in Hk;
    apply (init_from_same_rvalue (remove_cv_t t)); eauto.
Qed.

End FixupIterator.

(** A wrapper of a class that could be initialised from an rvalue can
    itself be initialised from a non-const rvalue. *)
Lemma wrapper_rvalue_initialisable b cls arg_const :
  rvalue_initialisable b arg_const = true →
  copy_constructible cls = copy_constructible b →
  move_ctor cls = implicit_move_ctor (move_ctor b) →
  rvalue_initialisable cls false = true.
Proof.
  unfold rvalue_initialisable. intros Hb -> ->.
  by destruct arg_const, (move_ctor b), (copy_constructible b).
Qed.

(** C4 at the failing input: [iterator_fixup<rvalue_iterator>] is
    well-formed and its copying constructor takes an lvalue
    [rvalue_iterator], yet [fixup_iterator] called on that lvalue
    instantiates [iterator_fixup<rvalue_iterator&>], whose base is a
    reference type, and is ill-formed. *)
Theorem fixup_iterator_rejects_lvalue :
  construct examples (TClass "rvalue_iterator")
            (Expr (TClass "rvalue_iterator") lvalue) = inr by_copy ∧
  fixup_iterator examples (Expr (TClass "rvalue_iterator") prvalue)
    = inr (Expr (TFixup (TClass "rvalue_iterator")) prvalue) ∧
  fixup_iterator examples (Expr (TClass "rvalue_iterator") lvalue)
    = inl (not_a_class (TLRef (TClass "rvalue_iterator"))).
Proof. repeat split. Qed.

(** A class without a move constructor is copied from a temporary,
    and so is a const temporary. *)
Example fixup_bare_temporary :
  construct examples (TClass "bare_iterator")
            (Expr (TClass "bare_iterator") xvalue) = inr by_copy ∧
  construct examples (TClass "rvalue_iterator")
            (Expr (TClass "rvalue_iterator") xvalue) = inr by_move ∧
  construct examples (TConst (TClass "rvalue_iterator"))
            (Expr (TConst (TClass "rvalue_iterator")) xvalue) = inr by_copy ∧
  fixup_iterator examples (Expr (TConst (TClass "rvalue_iterator")) prvalue)
    = inr (Expr (TFixup (TConst (TClass "rvalue_iterator"))) prvalue).
Proof. repeat split. Qed.

(** ** The inherited operators *)

Section Inherited.

Context {V P Rpre Rpost IterTy : Type}.
Context (ops : @Dynamic.cursor_ops V P Rpre Rpost IterTy).

Lemma exec_fixup s (w : Dynamic.iterator_fixup IterTy) :
  Dynamic.exec (Dynamic.fixup_ops ops) s w =
  (Dynamic.Fixup (Dynamic.exec ops s (Dynamic.base w)).1,
   (Dynamic.exec ops s (Dynamic.base w)).2).
Proof.
  destruct w as [c]; simpl.
  destruct s as [| |[|]]; simpl; unfold Dynamic.inherited; simpl.
  - by destruct (Dynamic.star ops c).
  - by destruct (Dynamic.arrow ops c).
  - by destruct (Dynamic.pre_inc ops c).
  - by destruct (Dynamic.post_inc ops c).
Qed.

(** Running a program on the wrapper runs it on the base subobject:
    same results, and the wrapper holds the state the cursor would
    have. *)
Lemma run_fixup prog (w : Dynamic.iterator_fixup IterTy) :
  Dynamic.run (Dynamic.fixup_ops ops) prog w =
  (Dynamic.Fixup (Dynamic.run ops prog (Dynamic.base w)).1,
   (Dynamic.run ops prog (Dynamic.base w)).2).
Proof.
  revert w. induction prog as [|s prog IH]; intros w.
  - by destruct w.
  - cbn [Dynamic.run]. rewrite exec_fixup.
    destruct (Dynamic.exec ops s (Dynamic.base w)) as [c1 e]; simpl.
    rewrite IH; simpl.
    by destruct (Dynamic.run ops prog c1).
Qed.

Lemma advance_fixup k (w : Dynamic.iterator_fixup IterTy) :
  Dynamic.advance (Dynamic.fixup_ops ops) k w =
  (Dynamic.Fixup (Dynamic.advance ops k (Dynamic.base w)).1,
   (Dynamic.advance ops k (Dynamic.base w)).2).
Proof. apply (exec_fixup (Dynamic.do_advance k)). Qed.

Lemma readings_fixup advs (w : Dynamic.iterator_fixup IterTy) :
  Dynamic.readings (Dynamic.fixup_ops ops) advs w =
  Dynamic.readings ops advs (Dynamic.base w).
Proof.
  revert w. induction advs as [|k advs IH]; intros [c]; simpl;
    unfold Dynamic.inherited; simpl;
    destruct (Dynamic.star ops c) as [c1 v]; [done|].
  f_equal.
  pose proof (advance_fixup k (Dynamic.Fixup c1)) as Hk.
  simpl in Hk. unfold Dynamic.inherited in Hk. simpl in Hk.
  rewrite Hk. simpl. apply IH.
Qed.

End Inherited.

Section Built.

Context {V P Rpre Rpost IterTy : Type}.
Context (ops : @Dynamic.cursor_ops V P Rpre Rpost IterTy).

(** Both constructors leave the value of the argument in the base. *)
Lemma base_from_copy (c : IterTy) :
  Dynamic.base (Dynamic.from_copy c) = c.
Proof. reflexivity. Qed.

Lemma base_fixup_iterator (c : IterTy) :
  Dynamic.base (Dynamic.fixup_iterator ops c) = c.
Proof.
  unfold Dynamic.fixup_iterator, Dynamic.from_move.
  by destruct (Dynamic.moved_from ops).
Qed.

Lemma fixup_iterator_from_copy (c : IterTy) :
  Dynamic.fixup_iterator ops c = Dynamic.from_copy c.
Proof.
  unfold Dynamic.fixup_iterator, Dynamic.from_move.
  by destruct (Dynamic.moved_from ops).
Qed.

End Built.

(** The operators of a well-formed [iterator_fixup<IterTy>] are those
    of its base, with the return types declared there. *)
Lemma inherited_signatures env IterTy cls b :
  class_of env (TFixup IterTy) = inr cls →
  class_of env (remove_cv_t IterTy) = inr b →
  op_deref cls = op_deref b ∧ op_arrow cls = op_arrow b ∧
  op_preinc cls = op_preinc b ∧ op_postinc cls = op_postinc b ∧
  op_eq cls = op_eq b ∧ op_ne cls = op_ne b.
Proof.
  intros Hcls Hb.
  destruct (class_of_fixup_inv env _ _ Hcls) as (b' & r & p & Hb' & Hr & Hp).
  rewrite Hb in Hb'. injection Hb' as <-.
  rewrite (class_of_fixup_intro env IterTy b r p Hb Hr Hp) in Hcls.
  injection Hcls as <-. simpl. by rewrite Hr, Hp.
Qed.

(** C3: reading the wrapper built from [c] after each of a sequence of
    advances gives the values read from [c] itself; more generally any
    program of reads and advances gives the same results on both and
    leaves the wrapper holding the state of the cursor; [==] and [!=]
    on two wrappers are [==] and [!=] on their bases; and the
    increment and comparison operators of the wrapper have the return
    types declared in the cursor class. *)
Theorem wrapped_cursor_transparent
    {V P Rpre Rpost IterTy : Type}
    (ops : @Dynamic.cursor_ops V P Rpre Rpost IterTy)
    (env : gmap string class_decl) (T : cpp_type) :
  (∀ advs c,
     Dynamic.readings (Dynamic.fixup_ops ops) advs (Dynamic.from_copy c)
       = Dynamic.readings ops advs c ∧
     Dynamic.readings (Dynamic.fixup_ops ops) advs
       (Dynamic.fixup_iterator ops c) = Dynamic.readings ops advs c) ∧
  (∀ prog c,
     Dynamic.run (Dynamic.fixup_ops ops) prog (Dynamic.from_copy c)
       = (Dynamic.Fixup (Dynamic.run ops prog c).1,
          (Dynamic.run ops prog c).2)) ∧
  (∀ k c,
     (Dynamic.advance (Dynamic.fixup_ops ops) k (Dynamic.from_copy c)).2
       = (Dynamic.advance ops k c).2) ∧
  (∀ w1 w2,
     Dynamic.equal (Dynamic.fixup_ops ops) w1 w2
       = Dynamic.equal ops (Dynamic.base w1) (Dynamic.base w2) ∧
     Dynamic.not_equal (Dynamic.fixup_ops ops) w1 w2
       = Dynamic.not_equal ops (Dynamic.base w1) (Dynamic.base w2)) ∧
  (∀ cls b,
     class_of env (TFixup T) = inr cls →
     class_of env (remove_cv_t T) = inr b →
     op_preinc cls = op_preinc b ∧ op_postinc cls = op_postinc b ∧
     op_eq cls = op_eq b ∧ op_ne cls = op_ne b).
Proof.
  repeat split.
  - by rewrite readings_fixup.
  - by rewrite readings_fixup, base_fixup_iterator.
  - intros prog c. by rewrite run_fixup.
  - intros k c. by rewrite advance_fixup.
  - by destruct (inherited_signatures env T cls b) as (_ & _ & ? & _).
  - by destruct (inherited_signatures env T cls b) as (_ & _ & _ & ? & _).
  - by destruct (inherited_signatures env T cls b) as (_ & _ & _ & _ & ? & _).
  - by destruct (inherited_signatures env T cls b) as (_ & _ & _ & _ & _ & ?).
Qed.

(** The counting cursor at 5, advanced by [++it] and then [it++]: the
    wrapper reads 5, 6, 7 as the cursor does; and the operators of
    [iterator_fixup<rvalue_iterator>] return [rvalue_iterator&] and
    [rvalue_iterator]. *)
Lemma wrapped_cursor_transparent_witness :
  Dynamic.readings (Dynamic.fixup_ops Dynamic.counting_ops)
    [Dynamic.pre_increment; Dynamic.post_increment] (Dynamic.from_copy 5)
    = [5; 6; 7] ∧
  Dynamic.equal (Dynamic.fixup_ops Dynamic.counting_ops)
    (Dynamic.Fixup 3) (Dynamic.Fixup 4) = false ∧
  op_preinc rvalue_iterator = Some (TLRef (TClass "rvalue_iterator")) ∧
  ∃ cls,
    class_of examples (TFixup (TClass "rvalue_iterator")) = inr cls ∧
    op_preinc cls = op_preinc rvalue_iterator ∧
    op_postinc cls = op_postinc rvalue_iterator ∧
    op_eq cls = op_eq rvalue_iterator ∧
    op_ne cls = op_ne rvalue_iterator.
Proof.
  destruct (wrapped_cursor_transparent Dynamic.counting_ops examples
              (TClass "rvalue_iterator")) as (Hread & _ & _ & Hcmp & Hsig).
  split; [by rewrite (proj1 (Hread _ 5))|].
  split; [by rewrite (proj1 (Hcmp _ _))|].
  split; [reflexivity|].
  eexists. split; [reflexivity|].
  apply Hsig; reflexivity.
Defined.

(** ** Objects in the store *)

Section StoreFacts.

Context {V P Rpre Rpost IterTy : Type}.
Context (ops : @Dynamic.cursor_ops V P Rpre Rpost IterTy).

Abbreviation object := (@Dynamic.object IterTy).
Abbreviation plain := (@Dynamic.plain IterTy).
Abbreviation fixed := (@Dynamic.fixed IterTy).

Lemma new_from_copy_plain (σ : gmap nat object) l c :
  σ !! l = Some (plain c) →
  Dynamic.new_from_copy l σ =
    Some (fresh (dom σ), <[fresh (dom σ) := fixed (Dynamic.from_copy c)]> σ).
Proof. intros Hl. unfold Dynamic.new_from_copy. by rewrite Hl. Qed.

Lemma fresh_lookup (σ : gmap nat object) : σ !! fresh (dom σ) = None.
Proof. apply not_elem_of_dom, is_fresh. Qed.

Lemma fresh_ne (σ : gmap nat object) l o :
  σ !! l = Some o → fresh (dom σ) ≠ l.
Proof. intros Hl Heq. rewrite <- Heq, fresh_lookup in Hl. discriminate. Qed.

(** A step on the object at [l] writes at [l] only. *)
Lemma exec_at_frame s l (σ σ' : gmap nat object) e l0 :
  Dynamic.exec_at ops s l σ = Some (e, σ') →
  l0 ≠ l →
  σ' !! l0 = σ !! l0.
Proof.
  unfold Dynamic.exec_at. intros Hs Hne.
  destruct (σ !! l) as [[c|w]|]; [| |discriminate].
  - destruct (Dynamic.exec ops s c) as [c' e'].
    injection Hs as _ <-. by rewrite lookup_insert_ne.
  - destruct (Dynamic.exec (Dynamic.fixup_ops ops) s w) as [w' e'].
    injection Hs as _ <-. by rewrite lookup_insert_ne.
Qed.

Lemma run_at_frame prog l (σ σ' : gmap nat object) es l0 :
  Dynamic.run_at ops prog l σ = Some (es, σ') →
  l0 ≠ l →
  σ' !! l0 = σ !! l0.
Proof.
  revert σ es. induction prog as [|s prog IH]; intros σ es Hrun Hne.
  - simpl in Hrun. by injection Hrun as _ <-.
  - simpl in Hrun.
    destruct (Dynamic.exec_at ops s l σ) as [[e σ1]|] eqn:Hs;
      [|discriminate]; simpl in Hrun.
    destruct (Dynamic.run_at ops prog l σ1) as [[es' σ2]|] eqn:Hr;
      [|discriminate]; simpl in Hrun.
    injection Hrun as _ <-.
    rewrite (IH _ _ Hr Hne). by apply (exec_at_frame s l σ σ1 e).
Qed.

(** A program on a wrapper in the store always runs; it gives the
    results of the program on the base and leaves the wrapper with the
    state the base reaches. *)
Lemma run_at_fixed prog l (σ : gmap nat object) w :
  σ !! l = Some (fixed w) →
  Dynamic.run_at ops prog l σ =
    Some ((Dynamic.run ops prog (Dynamic.base w)).2,
          <[l := fixed (Dynamic.Fixup
                          (Dynamic.run ops prog (Dynamic.base w)).1)]> σ).
Proof.
  revert σ w. induction prog as [|s prog IH]; intros σ [c] Hl.
  - simpl. by rewrite insert_id.
  - cbn [Dynamic.run_at Dynamic.run]. unfold Dynamic.exec_at.
    rewrite Hl, exec_fixup; simpl.
    destruct (Dynamic.exec ops s c) as [c1 e]; simpl.
    rewrite (IH _ (Dynamic.Fixup c1)) by apply lookup_insert_eq.
    simpl. destruct (Dynamic.run ops prog c1) as [c2 es]; simpl.
    by rewrite insert_insert_eq.
Qed.

(** Without a move constructor the moving constructor of the wrapper
    is the copying one: the source keeps its value. *)
Lemma new_from_move_without_move_ctor (σ : gmap nat object) l c :
  σ !! l = Some (plain c) →
  Dynamic.moved_from ops = None →
  Dynamic.new_from_move ops l σ = Dynamic.new_from_copy l σ.
Proof.
  intros Hl Hnone. unfold Dynamic.new_from_move, Dynamic.new_from_copy.
  rewrite Hl. unfold Dynamic.from_move. rewrite Hnone.
  by rewrite (insert_id σ l (plain c) Hl).
Qed.

End StoreFacts.

(** Reading the wrapped [rvalue_iterator] twice gives 1 both times. *)
Example read_rvalue_iterator_twice :
  (Dynamic.run (Dynamic.fixup_ops Dynamic.rvalue_iterator_ops)
     [Dynamic.do_star; Dynamic.do_star]
     (Dynamic.fixup_iterator Dynamic.rvalue_iterator_ops
        (Dynamic.RvalueIterator 0))).2
  = [Dynamic.ev_star 1%Z; Dynamic.ev_star 1%Z].
Proof. reflexivity. Qed.

(** C7: a wrapper constructed by copy from the cursor [c] at [l] is a
    new object; whatever program of reads and advances runs on it, the
    object at [l] still holds [c], and the wrapper has the results and
    the state that the program gives on [c].  A second wrapper
    constructed from the same [c] is another new object: a program on
    either wrapper leaves the other one and [c] as they were, and the
    other one then still behaves as a fresh copy of [c]. *)
Theorem wrapper_owns_independent_copy
    {V P Rpre Rpost IterTy : Type}
    (ops : @Dynamic.cursor_ops V P Rpre Rpost IterTy)
    (σ : gmap nat (@Dynamic.object IterTy)) (l : nat) (c : IterTy) :
  σ !! l = Some (Dynamic.plain c) →
  ∃ l1 σ1 l2 σ2,
    Dynamic.new_from_copy l σ = Some (l1, σ1) ∧
    Dynamic.new_from_copy l σ1 = Some (l2, σ2) ∧
    l1 ≠ l ∧ l2 ≠ l ∧ l1 ≠ l2 ∧
    σ1 !! l = Some (Dynamic.plain c) ∧
    (∀ prog, ∃ σ',
       Dynamic.run_at ops prog l1 σ1
         = Some ((Dynamic.run ops prog c).2, σ') ∧
       σ' !! l = Some (Dynamic.plain c) ∧
       σ' !! l1
         = Some (Dynamic.fixed (Dynamic.Fixup (Dynamic.run ops prog c).1))) ∧
    (∀ prog prog', ∃ σ' σ'',
       Dynamic.run_at ops prog l1 σ2
         = Some ((Dynamic.run ops prog c).2, σ') ∧
       σ' !! l = Some (Dynamic.plain c) ∧
       σ' !! l2 = Some (Dynamic.fixed (Dynamic.from_copy c)) ∧
       Dynamic.run_at ops prog' l2 σ'
         = Some ((Dynamic.run ops prog' c).2, σ'') ∧
       σ'' !! l = Some (Dynamic.plain c) ∧
       σ'' !! l1
         = Some (Dynamic.fixed (Dynamic.Fixup (Dynamic.run ops prog c).1))).
Proof.
  intros Hl.
  set (l1 := fresh (dom σ)).
  set (σ1 := <[l1 := Dynamic.fixed (Dynamic.from_copy c)]> σ).
  assert (l1 ≠ l) as Hl1 by (by apply (fresh_ne σ l (Dynamic.plain c))).
  assert (σ1 !! l = Some (Dynamic.plain c)) as Hl'
    by (by unfold σ1; rewrite lookup_insert_ne).
  assert (σ1 !! l1 = Some (Dynamic.fixed (Dynamic.from_copy c))) as Hw1
    by apply lookup_insert_eq.
  set (l2 := fresh (dom σ1)).
  set (σ2 := <[l2 := Dynamic.fixed (Dynamic.from_copy c)]> σ1).
  assert (l2 ≠ l) as Hl2 by (by apply (fresh_ne σ1 l (Dynamic.plain c))).
  assert (l2 ≠ l1) as Hl21 by (by apply (fresh_ne σ1 l1 _ Hw1)).
  assert (σ2 !! l1 = Some (Dynamic.fixed (Dynamic.from_copy c))) as Hw1'
    by (by unfold σ2; rewrite lookup_insert_ne).
  exists l1, σ1, l2, σ2.
  split; [by apply new_from_copy_plain|].
  split; [by apply new_from_copy_plain|].
  do 4 (split; [done|]).
  split.
  - intros prog. eexists.
    split; [apply (run_at_fixed ops prog l1 σ1 _ Hw1)|].
    split; [by rewrite lookup_insert_ne|apply lookup_insert_eq].
  - intros prog prog'.
    set (σ' := <[l1 := Dynamic.fixed
                   (Dynamic.Fixup (Dynamic.run ops prog c).1)]> σ2).
    assert (σ' !! l2 = Some (Dynamic.fixed (Dynamic.from_copy c))) as Hw2.
    { unfold σ', σ2. rewrite lookup_insert_ne by done.
      apply lookup_insert_eq. }
    exists σ'. eexists.
    split; [apply (run_at_fixed ops prog l1 σ2 _ Hw1')|].
    split.
    { unfold σ', σ2. by rewrite !lookup_insert_ne. }
    split; [done|].
    split; [apply (run_at_fixed ops prog' l2 σ' _ Hw2)|].
    split.
    + unfold σ', σ2. by rewrite !lookup_insert_ne.
    + rewrite lookup_insert_ne by done. apply lookup_insert_eq.
Qed.

(** The counting cursor at 5 in location 0: after [++w; ++w; *w] on a
    wrapper copied from it, the cursor is still at 5. *)
Lemma wrapper_owns_independent_copy_witness :
  ∃ l1 σ1,
    Dynamic.new_from_copy 0 {[ 0 := Dynamic.plain 5 ]} = Some (l1, σ1) ∧
    l1 ≠ 0 ∧
    ∃ σ',
      Dynamic.run_at Dynamic.counting_ops
        [Dynamic.do_advance Dynamic.pre_increment;
         Dynamic.do_advance Dynamic.pre_increment;
         Dynamic.do_star] l1 σ1
        = Some ([Dynamic.ev_pre 6; Dynamic.ev_pre 7; Dynamic.ev_star 7], σ') ∧
      σ' !! 0 = Some (Dynamic.plain 5) ∧
      σ' !! l1 = Some (Dynamic.fixed (Dynamic.Fixup 7)).
Proof.
  destruct (wrapper_owns_independent_copy Dynamic.counting_ops
              {[ 0 := Dynamic.plain 5 ]} 0 5 (lookup_singleton_eq _ _))
    as (l1 & σ1 & l2 & σ2 & H1 & _ & Hne & _ & _ & _ & Hrun & _).
  exists l1, σ1. split; [exact H1|]. split; [exact Hne|].
  destruct (Hrun [Dynamic.do_advance Dynamic.pre_increment;
                  Dynamic.do_advance Dynamic.pre_increment;
                  Dynamic.do_star]) as (σ' & Hr & Hc & Hw).
  exists σ'. split; [exact Hr|]. split; [exact Hc|exact Hw].
Defined.

(** ** Ranges *)

(** C9: [range | range_fixup_adaptor{}] is [fixup_range(range)], the
    iterator range of [fixup_iterator] applied to [range.begin()] and
    to [range.end()], both as a type computation and on values. *)
Theorem pipe_is_fixup_range
    {V P Rpre Rpost IterTy : Type}
    (ops : @Dynamic.cursor_ops V P Rpre Rpost IterTy)
    (env : gmap string class_decl) (RangeTy : range_decl)
    (range : Dynamic.iterator_range IterTy) (a : range_fixup_adaptor) :
  pipe env RangeTy a = fixup_range env RangeTy ∧
  pipe env RangeTy a =
    (b ← fixup_iterator env (call_expr (begin_ret RangeTy));
     e ← fixup_iterator env (call_expr (end_ret RangeTy));
     make_iterator_range env b e) ∧
  Dynamic.pipe ops range a = Dynamic.fixup_range ops range ∧
  Dynamic.pipe ops range a =
    Dynamic.make_iterator_range
      (Dynamic.fixup_iterator ops (Dynamic.range_begin range))
      (Dynamic.fixup_iterator ops (Dynamic.range_end range)).
Proof. repeat split. Qed.

(** The two adapted ranges of [main]. *)
Example pipe_rvalue_range :
  pipe examples (iterator_range (TClass "rvalue_iterator")) RangeFixupAdaptor
    = inr (TIteratorRange (TFixup (TClass "rvalue_iterator"))) ∧
  pipe examples (iterator_range (TClass "pointer_rvalue_iterator"))
       RangeFixupAdaptor
    = inr (TIteratorRange (TFixup (TClass "pointer_rvalue_iterator"))).
Proof. split; reflexivity. Qed.

(** A range whose [begin()] returns a reference is not adapted. *)
Example pipe_reference_range :
  pipe examples (RangeDecl (TLRef (TClass "rvalue_iterator"))
                           (TLRef (TClass "rvalue_iterator")))
       RangeFixupAdaptor
    = inl (not_a_class (TLRef (TClass "rvalue_iterator"))).
Proof. reflexivity. Qed.

(** ** Wrapping twice *)

(** X8: when [fixup_iterator(iter)] is accepted, so is
    [fixup_iterator(fixup_iterator(iter))], whose argument is the
    temporary that the first call returns; the five member typedefs of
    the twice-wrapped class are those of the once-wrapped class, and so
    are the return types of its operators.  At run time the
    twice-wrapped cursor gives the results of the once-wrapped cursor
    on every program, and compares as it does. *)
Theorem fixup_iterator_idempotent
    {V P Rpre Rpost IterTy : Type}
    (ops : @Dynamic.cursor_ops V P Rpre Rpost IterTy)
    (env : gmap string class_decl) (iter w : expr) :
  fixup_iterator env iter = inr w →
  ∃ w2 cls cls2,
    fixup_iterator env w = inr w2 ∧
    class_of env (e_type w) = inr cls ∧
    class_of env (e_type w2) = inr cls2 ∧
    td_reference cls2 = td_reference cls ∧
    td_pointer cls2 = td_pointer cls ∧
    td_value_type cls2 = td_value_type cls ∧
    td_difference_type cls2 = td_difference_type cls ∧
    td_iterator_category cls2 = td_iterator_category cls ∧
    (op_deref cls2 = op_deref cls ∧ op_arrow cls2 = op_arrow cls ∧
     op_preinc cls2 = op_preinc cls ∧ op_postinc cls2 = op_postinc cls ∧
     op_eq cls2 = op_eq cls ∧ op_ne cls2 = op_ne cls) ∧
    (∀ prog (x : Dynamic.iterator_fixup IterTy),
       Dynamic.run (Dynamic.fixup_ops (Dynamic.fixup_ops ops)) prog
         (Dynamic.fixup_iterator (Dynamic.fixup_ops ops) x)
       = (Dynamic.Fixup (Dynamic.run (Dynamic.fixup_ops ops) prog x).1,
          (Dynamic.run (Dynamic.fixup_ops ops) prog x).2)) ∧
    (∀ x y : Dynamic.iterator_fixup IterTy,
       Dynamic.equal (Dynamic.fixup_ops (Dynamic.fixup_ops ops))
         (Dynamic.fixup_iterator (Dynamic.fixup_ops ops) x)
         (Dynamic.fixup_iterator (Dynamic.fixup_ops ops) y)
       = Dynamic.equal (Dynamic.fixup_ops ops) x y ∧
       Dynamic.not_equal (Dynamic.fixup_ops (Dynamic.fixup_ops ops))
         (Dynamic.fixup_iterator (Dynamic.fixup_ops ops) x)
         (Dynamic.fixup_iterator (Dynamic.fixup_ops ops) y)
       = Dynamic.not_equal (Dynamic.fixup_ops ops) x y).
Proof.
  intros Hw.
  destruct (fixup_iterator_inv env iter w Hw)
    as (cls & b & -> & Hcat & Hcls & Hb & Hinit).
  set (t := e_type iter) in *.
  destruct (class_of_fixup_inv env _ _ Hcls) as (b' & r & p & Hb' & Hr & Hp).
  rewrite Hb in Hb'. injection Hb' as <-.
  pose proof Hcls as Hcls'.
  rewrite (class_of_fixup_intro env t b r p Hb Hr Hp) in Hcls'.
  injection Hcls' as Hdef.
  assert (op_deref cls = Some r) as Hr' by (by rewrite <- Hdef).
  assert (op_arrow cls = Some p) as Hp' by (by rewrite <- Hdef).
  assert (class_of env (remove_cv_t (TFixup t)) = inr cls) as Hcls2
    by exact Hcls.
  exists (Expr (TFixup (TFixup t)) prvalue), cls. eexists.
  split.
  { apply (fixup_iterator_temporary env (TFixup t) prvalue cls r p);
      [done|done|done|done|].
    apply (wrapper_rvalue_initialisable b cls _ Hinit);
      by rewrite <- Hdef. }
  split; [exact Hcls|].
  split; [exact (class_of_fixup_intro env (TFixup t) cls r p Hcls2 Hr' Hp')|].
  simpl.
  unfold inferred_value_type, inferred_difference_type,
    inferred_iterator_category.
  rewrite <- Hdef; simpl.
  do 5 (split; [reflexivity|]).
  split; [by repeat split|].
  split.
  - intros prog x.
    by rewrite run_fixup, base_fixup_iterator.
  - intros x y. rewrite !fixup_iterator_from_copy. by split.
Qed.

Lemma fixup_iterator_idempotent_witness :
  ∃ w2 cls cls2,
    fixup_iterator examples
      (Expr (TFixup (TClass "bare_iterator")) prvalue) = inr w2 ∧
    class_of examples (TFixup (TClass "bare_iterator")) = inr cls ∧
    class_of examples (e_type w2) = inr cls2 ∧
    td_reference cls2 = td_reference cls ∧
    td_pointer cls2 = td_pointer cls ∧
    td_value_type cls2 = td_value_type cls ∧
    td_difference_type cls2 = td_difference_type cls ∧
    td_iterator_category cls2 = td_iterator_category cls.
Proof.
  destruct (fixup_iterator_idempotent Dynamic.counting_ops examples
              (Expr (TClass "bare_iterator") prvalue)
              (Expr (TFixup (TClass "bare_iterator")) prvalue) eq_refl)
    as (w2 & cls & cls2 & H1 & H2 & H3 & H4 & H5 & H6 & H7 & H8 & _).
  exists w2, cls, cls2. repeat split; assumption.
Defined.

(** C10 at the failing input: [fixup_iterator] accepts the temporary
    [rvalue_iterator{}] and, applied to its own result, the temporary
    wrapper; but a wrapper held in a variable is an lvalue, for which
    [IterTy] is deduced as [iterator_fixup<rvalue_iterator>&], a
    reference that is no base class: wrapping the already wrapped
    cursor is ill-formed. *)
Theorem fixup_iterator_rejects_wrapped_lvalue :
  fixup_iterator examples (Expr (TClass "rvalue_iterator") prvalue)
    = inr (Expr (TFixup (TClass "rvalue_iterator")) prvalue) ∧
  fixup_iterator examples (Expr (TFixup (TClass "rvalue_iterator")) prvalue)
    = inr (Expr (TFixup (TFixup (TClass "rvalue_iterator"))) prvalue) ∧
  fixup_iterator examples (Expr (TFixup (TClass "rvalue_iterator")) lvalue)
    = inl (not_a_class (TLRef (TFixup (TClass "rvalue_iterator")))).
Proof. repeat split. Qed.

(** * Further properties of the templates *)

(** ** What a specialisation provides *)



(** X2: [iterator_fixup<IterTy>] is well-formed only if [IterTy] is a
    possibly const class type that can be a base class, not a
    reference, and both [operator*()] and [operator->()] can be called
    on an rvalue of it; the wrapper's [reference] and [pointer] are
    then the types of these two calls. *)
Theorem fixup_well_formed_only_if env IterTy cls :
  class_of env (TFixup IterTy) = inr cls →
  ∃ b r p,
    class_of env (remove_cv_t IterTy) = inr b ∧
    decay_t IterTy = remove_cv_t IterTy ∧
    op_deref b = Some r ∧
    op_arrow b = Some p ∧
    td_reference cls = Some r ∧
    td_pointer cls = Some p.
Proof.
  intros Hcls.
  destruct (class_of_fixup_inv env _ _ Hcls) as (b & r & p & Hb & Hr & Hp).
  exists b, r, p. split; [done|].
  split; [exact (decay_of_class env _ _ Hb)|].
  rewrite (class_of_fixup_intro env IterTy b r p Hb Hr Hp) in Hcls.
  injection Hcls as <-. by repeat split.
Qed.

Lemma fixup_well_formed_only_if_witness :
  ∃ b r p,
    class_of examples (remove_cv_t (TConst (TClass "bare_iterator")))
      = inr b ∧
    decay_t (TConst (TClass "bare_iterator"))
      = remove_cv_t (TConst (TClass "bare_iterator")) ∧
    op_deref b = Some r ∧
    op_arrow b = Some p ∧
    r = TLRef (TConst TInt) ∧
    p = TPtr (TConst TInt).
Proof.
  destruct (fixup_well_formed_only_if examples
              (TConst (TClass "bare_iterator")) _ eq_refl)
    as (b & r & p & Hb & Hd & Hr & Hp & Href & Hptr).
  exists b, r, p. repeat split; try assumption.
  - simpl in Href. by injection Href.
  - simpl in Hptr. by injection Hptr.
Defined.

(** X3: a const-qualified template argument gives the same class
    members as the unqualified one, constructors included, because
    every member is computed from [decayed_type]. *)
Theorem fixup_ignores_const env T b :
  class_of env T = inr b →
  class_of env (TFixup (TConst T)) = class_of env (TFixup T).
Proof.
  intros Hb.
  assert (remove_cv_t T = T) as Hcv
    by (destruct T; simpl in *; try reflexivity; discriminate).
  assert (decay_t T = T) as Hdecay
    by (destruct T; simpl in *; try reflexivity; discriminate).
  rewrite !class_of_fixup_unfold. unfold iterator_fixup.
  change (remove_cv_t (TConst T)) with T.
  change (decay_t (TConst T)) with T.
  by rewrite Hcv, Hdecay.
Qed.

Lemma fixup_ignores_const_witness :
  class_of examples (TFixup (TConst (TClass "bare_iterator")))
    = class_of examples (TFixup (TClass "bare_iterator")).
Proof.
  apply (fixup_ignores_const examples (TClass "bare_iterator") bare_iterator).
  reflexivity.
Defined.

(** X4: for a cursor class that declares no [value_type] and whose
    [operator*] returns [const X&], the inferred [value_type] is
    [const X]: only the reference is removed, the qualifier stays. *)
Theorem inferred_value_type_keeps_const env IterTy b X p :
  class_of env (remove_cv_t IterTy) = inr b →
  td_value_type b = None →
  op_deref b = Some (TLRef (TConst X)) →
  op_arrow b = Some p →
  ∃ cls,
    class_of env (TFixup IterTy) = inr cls ∧
    td_value_type cls = Some (TConst X).
Proof.
  intros Hb Hv Hr Hp. eexists.
  split; [exact (class_of_fixup_intro env IterTy b _ p Hb Hr Hp)|].
  simpl. unfold inferred_value_type. by rewrite Hv.
Qed.

Lemma inferred_value_type_keeps_const_witness :
  ∃ cls,
    class_of examples (TFixup (TClass "bare_iterator")) = inr cls ∧
    td_value_type cls = Some (TConst TInt).
Proof.
  apply (inferred_value_type_keeps_const examples (TClass "bare_iterator")
           bare_iterator TInt (TPtr (TConst TInt))); reflexivity.
Defined.

(** ** Which calls are accepted *)

Section Acceptance.

Variable env : gmap string class_decl.

Lemma class_type_unqualified T b :
  class_of env T = inr b → remove_cv_t T = T ∧ decay_t T = T.
Proof. destruct T; simpl; try discriminate; by split. Qed.

End Acceptance.

(** X5: for an argument of the cursor class [T], overload resolution
    selects [iterator_fixup(decayed_type&&)] exactly for a non-const
    rvalue and [iterator_fixup(const decayed_type&)] for everything
    else.  The first moves the base when [T] declares a move
    constructor, copies it when [T] declares none, and is ill-formed
    when the move constructor of [T] is deleted, copy-constructible or
    not; the second copies the base and needs the copy constructor. *)
Theorem constructor_selection env T b r p arg :
  class_of env T = inr b →
  op_deref b = Some r →
  op_arrow b = Some p →
  remove_cv_t (e_type arg) = T →
  (select_ctor arg = from_rvalue ↔
   is_rvalue arg = true ∧ is_const (e_type arg) = false) ∧
  construct env T arg =
    match select_ctor arg with
    | from_rvalue =>
        match move_ctor b with
        | declared => inr by_move
        | deleted => inl (deleted_move_constructor T)
        | not_declared =>
            if copy_constructible b then inr by_copy
            else inl (deleted_copy_constructor T)
        end
    | from_const_lvalue =>
        if copy_constructible b then inr by_copy
        else inl (deleted_copy_constructor T)
    end.
Proof.
  intros Hb Hr Hp Harg.
  destruct (class_type_unqualified env T b Hb) as [Hcv _].
  assert (class_of env (remove_cv_t T) = inr b) as Hb' by (by rewrite Hcv).
  split.
  - unfold select_ctor.
    destruct (is_rvalue arg), (is_const (e_type arg)); simpl;
      split; try done; by intros [? ?].
  - rewrite (construct_unfold_same env T b _ arg
               (class_of_fixup_intro env T b r p Hb' Hr Hp) Hb')
      by (by rewrite Hcv).
    rewrite Hcv. by destruct (select_ctor arg).
Qed.

Lemma constructor_selection_witness :
  construct examples (TClass "rvalue_iterator")
    (Expr (TClass "rvalue_iterator") xvalue) = inr by_move ∧
  construct examples (TClass "rvalue_iterator")
    (Expr (TConst (TClass "rvalue_iterator")) xvalue) = inr by_copy ∧
  construct examples (TClass "rvalue_iterator")
    (Expr (TClass "rvalue_iterator") lvalue) = inr by_copy ∧
  construct examples (TClass "bare_iterator")
    (Expr (TClass "bare_iterator") prvalue) = inr by_copy.
Proof.
  split; [|split; [|split]].
  - exact (proj2 (constructor_selection examples (TClass "rvalue_iterator")
             rvalue_iterator TInt (TPtr TInt)
             (Expr (TClass "rvalue_iterator") xvalue)
             eq_refl eq_refl eq_refl eq_refl)).
  - exact (proj2 (constructor_selection examples (TClass "rvalue_iterator")
             rvalue_iterator TInt (TPtr TInt)
             (Expr (TConst (TClass "rvalue_iterator")) xvalue)
             eq_refl eq_refl eq_refl eq_refl)).
  - exact (proj2 (constructor_selection examples (TClass "rvalue_iterator")
             rvalue_iterator TInt (TPtr TInt)
             (Expr (TClass "rvalue_iterator") lvalue)
             eq_refl eq_refl eq_refl eq_refl)).
  - exact (proj2 (constructor_selection examples (TClass "bare_iterator")
             bare_iterator (TLRef (TConst TInt)) (TPtr (TConst TInt))
             (Expr (TClass "bare_iterator") prvalue)
             eq_refl eq_refl eq_refl eq_refl)).
Defined.

(** A copyable class whose move constructor is deleted: a non-const
    temporary is not accepted, a const one and an lvalue are copied. *)
Example deleted_move_constructor_rejected :
  let no_move := ClassDecl None None None None None
                   (Some TInt) (Some (TPtr TInt))
                   (Some TInt) (Some (TPtr TInt))
                   None None None None [] true deleted in
  let env := <["no_move" := no_move]> examples in
  fixup_iterator env (Expr (TClass "no_move") prvalue)
    = inl (deleted_move_constructor (TClass "no_move")) ∧
  fixup_iterator env (Expr (TConst (TClass "no_move")) prvalue)
    = inr (Expr (TFixup (TConst (TClass "no_move"))) prvalue) ∧
  construct env (TClass "no_move") (Expr (TClass "no_move") lvalue)
    = inr by_copy.
Proof. repeat split. Qed.

(** What an accepted call says about its argument, in full. *)
Lemma fixup_iterator_accepted_inv env iter w :
  fixup_iterator env iter = inr w →
  w = Expr (TFixup (e_type iter)) prvalue ∧
  e_cat iter ≠ lvalue ∧
  ∃ b r p,
    class_of env (remove_cv_t (e_type iter)) = inr b ∧
    op_deref b = Some r ∧
    op_arrow b = Some p ∧
    rvalue_initialisable b (is_const (e_type iter)) = true.
Proof.
  intros Hw.
  destruct (fixup_iterator_inv env _ _ Hw)
    as (cls & b & -> & Hcat & Hcls & Hb & Hinit).
  destruct (class_of_fixup_inv env _ _ Hcls)
    as (b' & r & p & Hb' & Hr & Hp).
  rewrite Hb in Hb'. injection Hb' as <-.
  split; [done|]. split; [done|]. by exists b, r, p.
Qed.

(** X6: [fixup_iterator(iter)] is accepted only if [iter] is an rvalue
    of a possibly const class type that can be a base class, on which
    [operator*()] and [operator->()] can be called as an rvalue, and
    which can be initialised from that rvalue (a const one needs the
    copy constructor; a non-const one a move constructor that is not
    deleted, or the copy constructor when none is declared).  Every
    lvalue is rejected.  The result is a prvalue of type
    [iterator_fixup<T>], [T] the type of [iter], whose [reference] and
    [pointer] are the types of the two calls. *)
Theorem fixup_iterator_accepted_only_if env iter w :
  fixup_iterator env iter = inr w →
  w = Expr (TFixup (e_type iter)) prvalue ∧
  e_cat iter ≠ lvalue ∧
  ∃ b r p cls,
    class_of env (remove_cv_t (e_type iter)) = inr b ∧
    op_deref b = Some r ∧
    op_arrow b = Some p ∧
    rvalue_initialisable b (is_const (e_type iter)) = true ∧
    class_of env (e_type w) = inr cls ∧
    td_reference cls = Some r ∧
    td_pointer cls = Some p.
Proof.
  intros Hw.
  destruct (fixup_iterator_accepted_inv env iter w Hw)
    as (-> & Hcat & b & r & p & Hb & Hr & Hp & Hinit).
  split; [done|]. split; [done|].
  exists b, r, p. eexists.
  do 4 (split; [done|]).
  split; [exact (class_of_fixup_intro env _ b r p Hb Hr Hp)|].
  by split.
Qed.

Lemma fixup_iterator_accepted_only_if_witness :
  ∃ b r p cls,
    class_of examples (TClass "pointer_rvalue_iterator") = inr b ∧
    op_deref b = Some r ∧
    op_arrow b = Some p ∧
    class_of examples (TFixup (TClass "pointer_rvalue_iterator")) = inr cls ∧
    td_reference cls = Some r ∧
    td_pointer cls = Some p.
Proof.
  destruct (fixup_iterator_accepted_only_if examples
              (Expr (TClass "pointer_rvalue_iterator") prvalue) _ eq_refl)
    as (_ & _ & b & r & p & cls & Hb & Hr & Hp & _ & Hcls & Href & Hptr).
  exists b, r, p, cls. repeat split; assumption.
Defined.

(** ** Wrapping any number of times *)

Lemma fixup_of_fixup env T cls :
  class_of env (TFixup T) = inr cls →
  ∃ cls2,
    class_of env (TFixup (TFixup T)) = inr cls2 ∧
    td_value_type cls2 = td_value_type cls ∧
    td_difference_type cls2 = td_difference_type cls ∧
    td_reference cls2 = td_reference cls ∧
    td_pointer cls2 = td_pointer cls ∧
    td_iterator_category cls2 = td_iterator_category cls ∧
    op_deref cls2 = op_deref cls ∧
    op_arrow cls2 = op_arrow cls ∧
    copy_constructible cls2 = copy_constructible cls ∧
    move_ctor cls2 = move_ctor cls.
Proof.
  intros Hcls.
  destruct (class_of_fixup_inv env _ _ Hcls) as (b & r & p & Hb & Hr & Hp).
  pose proof Hcls as Hdef.
  rewrite (class_of_fixup_intro env T b r p Hb Hr Hp) in Hdef.
  injection Hdef as Hdef.
  assert (op_deref cls = Some r) as Hr' by (by rewrite <- Hdef).
  assert (op_arrow cls = Some p) as Hp' by (by rewrite <- Hdef).
  eexists.
  split; [exact (class_of_fixup_intro env (TFixup T) cls r p Hcls Hr' Hp')|].
  simpl. unfold inferred_value_type, inferred_difference_type,
    inferred_iterator_category.
  rewrite <- Hdef. simpl. repeat split; try done.
  by destruct (move_ctor b).
Qed.

(** X7: once [fixup_iterator(iter)] is accepted, it can be applied to
    its own result any number of times: every further call is accepted,
    and every class in the tower has the five typedefs and the
    dereference operators of the first one. *)
Theorem nested_fixup_stable env iter w cls n :
  fixup_iterator env iter = inr w →
  class_of env (e_type w) = inr cls →
  ∃ cls_n,
    class_of env (nested_fixup n (e_type w)) = inr cls_n ∧
    fixup_iterator env (Expr (nested_fixup n (e_type w)) prvalue)
      = inr (Expr (nested_fixup (S n) (e_type w)) prvalue) ∧
    td_value_type cls_n = td_value_type cls ∧
    td_difference_type cls_n = td_difference_type cls ∧
    td_reference cls_n = td_reference cls ∧
    td_pointer cls_n = td_pointer cls ∧
    td_iterator_category cls_n = td_iterator_category cls ∧
    op_deref cls_n = op_deref cls ∧
    op_arrow cls_n = op_arrow cls.
Proof.
  intros Hw Hcls.
  destruct (fixup_iterator_accepted_inv env iter w Hw)
    as (-> & _ & b & r & p & Hb & Hr & Hp & Hinit).
  cbn [e_type e_cat] in *.
  assert (rvalue_initialisable cls false = true) as Hinit'.
  { rewrite (class_of_fixup_intro env _ b r p Hb Hr Hp) in Hcls.
    injection Hcls as <-.
    by apply (wrapper_rvalue_initialisable b _ _ Hinit). }
  enough (∃ cls_n U,
    nested_fixup n (TFixup (e_type iter)) = TFixup U ∧
    class_of env (TFixup U) = inr cls_n ∧
    td_value_type cls_n = td_value_type cls ∧
    td_difference_type cls_n = td_difference_type cls ∧
    td_reference cls_n = td_reference cls ∧
    td_pointer cls_n = td_pointer cls ∧
    td_iterator_category cls_n = td_iterator_category cls ∧
    op_deref cls_n = op_deref cls ∧
    op_arrow cls_n = op_arrow cls ∧
    copy_constructible cls_n = copy_constructible cls ∧
    move_ctor cls_n = move_ctor cls)
    as (cls_n & U & HU & Hn & Hv & Hd & Hrf & Hpt & Hc & Hsr & Har & Hcc & Hmv).
  { exists cls_n. cbn [nested_fixup]. rewrite HU. split; [done|].
    split; [|by repeat split].
    destruct (fixup_of_fixup env U cls_n Hn) as (cls2 & H2 & _).
    destruct (class_of_fixup_inv env _ _ H2)
      as (c & r' & p' & Hc' & Hr' & Hp').
    change (remove_cv_t (TFixup U)) with (TFixup U) in Hc'.
    rewrite Hn in Hc'. injection Hc' as <-.
    apply (fixup_iterator_temporary env (TFixup U) prvalue cls_n r' p');
      [done|done|done|done|].
    revert Hinit'. unfold rvalue_initialisable. simpl.
    by rewrite Hcc, Hmv. }
  induction n as [|n (cls_n & U & HU & Hn & IH)].
  - exists cls, (e_type iter). by repeat split.
  - destruct (fixup_of_fixup env U cls_n Hn)
      as (cls2 & H2 & Hv & Hd & Hrf & Hpt & Hc & Hsr & Har & Hcc & Hmv).
    exists cls2, (TFixup U). simpl. rewrite HU.
    split; [done|]. split; [done|].
    destruct IH as (<- & <- & <- & <- & <- & <- & <- & <- & <-).
    by repeat split.
Qed.

Lemma nested_fixup_stable_witness :
  ∃ cls_n,
    class_of examples
      (TFixup (TFixup (TFixup (TClass "bare_iterator")))) = inr cls_n ∧
    fixup_iterator examples
      (Expr (TFixup (TFixup (TFixup (TClass "bare_iterator")))) prvalue)
      = inr (Expr (TFixup (TFixup (TFixup (TFixup (TClass "bare_iterator")))))
                  prvalue) ∧
    td_value_type cls_n = Some (TConst TInt) ∧
    td_reference cls_n = Some (TLRef (TConst TInt)).
Proof.
  destruct (nested_fixup_stable examples
              (Expr (TClass "bare_iterator") prvalue)
              (Expr (TFixup (TClass "bare_iterator")) prvalue)
              _ 2 eq_refl eq_refl)
    as (cls_n & Hn & Hcall & Hv & _ & Hr & _).
  exists cls_n. split; [exact Hn|]. split; [exact Hcall|].
  split; [exact Hv|exact Hr].
Defined.

(** ** Ranges *)

(** What an accepted [make_iterator_range] on two wrappers says. *)
Lemma make_iterator_range_fixup env T t :
  make_iterator_range env (Expr (TFixup T) prvalue) (Expr (TFixup T) prvalue)
    = inr t ↔
  t = TIteratorRange (TFixup T) ∧
  ∃ cls,
    class_of env (TFixup T) = inr cls ∧
    has_iterator_traits cls = true ∧
    copy_constructible cls = true.
Proof.
  unfold make_iterator_range. cbn [e_type remove_cv_t].
  rewrite decide_True by reflexivity.
  destruct (class_of env (TFixup T)) as [e|cls] eqn:Hcls; simpl.
  - split; [discriminate|]. by intros (_ & cls & ? & _).
  - split.
    + destruct (has_iterator_traits cls) eqn:Htr,
               (copy_constructible cls) eqn:Hcc; simpl; try discriminate.
      intros Ht. injection Ht as <-. split; [done|]. by exists cls.
    + intros (-> & c & Hc & Htr & Hcc). injection Hc as <-.
      by rewrite Htr, Hcc.
Qed.

(** X9: the adaptor can be chained.  When [range | range_fixup_adaptor{}]
    is accepted for a [boost::iterator_range], the result is a
    [boost::iterator_range<U>] to which the adaptor applies again,
    giving [boost::iterator_range<iterator_fixup<U>>]. *)
Theorem pipe_chains env IteratorT a R :
  pipe env (iterator_range IteratorT) a = inr R →
  ∃ U,
    R = TIteratorRange U ∧
    pipe env (iterator_range U) a = inr (TIteratorRange (TFixup U)).
Proof.
  unfold pipe, fixup_range. cbn [begin_ret end_ret iterator_range].
  destruct (fixup_iterator env (call_expr IteratorT)) as [e|w] eqn:Hw;
    [discriminate|].
  destruct (fixup_iterator_accepted_inv env _ _ Hw)
    as (-> & Hcat & b & r & p & Hb & Hr & Hp & Hinit).
  set (T := e_type (call_expr IteratorT)) in *.
  simpl. intros HR.
  apply make_iterator_range_fixup in HR
    as (-> & cls & Hcls & Htraits & Hcopy).
  exists (TFixup T). split; [done|].
  destruct (fixup_of_fixup env T cls Hcls)
    as (cls2 & Hcls2 & Hv & Hd & Hrf & Hpt & Hc & Hsr & Har & Hcc & Hmv).
  destruct (class_of_fixup_inv env _ _ Hcls2)
    as (c & r' & p' & Hc' & Hr' & Hp').
  change (remove_cv_t (TFixup T)) with (TFixup T) in Hc'.
  rewrite Hcls in Hc'. injection Hc' as <-.
  assert (fixup_iterator env (call_expr (TFixup T))
          = inr (Expr (TFixup (TFixup T)) prvalue)) as ->.
  { change (call_expr (TFixup T)) with (Expr (TFixup T) prvalue).
    apply (fixup_iterator_temporary env (TFixup T) prvalue cls r' p');
      [done|exact Hcls|done|done|].
    rewrite (class_of_fixup_intro env T b r p Hb Hr Hp) in Hcls.
    injection Hcls as <-.
    by apply (wrapper_rvalue_initialisable b _ _ Hinit). }
  simpl. apply make_iterator_range_fixup. split; [done|].
  exists cls2. split; [done|].
  split; [|by rewrite Hcc].
  revert Htraits. unfold has_iterator_traits.
  by rewrite Hv, Hd, Hrf, Hpt, Hc.
Qed.

(** The chain on the [rvalue_range] of [main]. *)
Lemma pipe_chains_witness :
  ∃ U,
    TIteratorRange (TFixup (TClass "rvalue_iterator")) = TIteratorRange U ∧
    pipe examples (iterator_range U) RangeFixupAdaptor
      = inr (TIteratorRange (TFixup U)).
Proof.
  apply (pipe_chains examples (TClass "rvalue_iterator") RangeFixupAdaptor).
  reflexivity.
Defined.

(** ** The moving constructor at run time *)

(** X10: [iterator_fixup<IterTy> w(std::move(c))] creates one new
    object holding the value [c] had, leaves in [c] what the move
    constructor of the cursor class leaves, and touches no other
    object; for a class without a move constructor it is the copying
    construction and [c] keeps its value. *)
Theorem moving_constructor_effect
    {V P Rpre Rpost IterTy : Type}
    (ops : @Dynamic.cursor_ops V P Rpre Rpost IterTy)
    (σ : gmap nat (@Dynamic.object IterTy)) (l : nat) (c : IterTy) :
  σ !! l = Some (Dynamic.plain c) →
  ∃ l' σ',
    Dynamic.new_from_move ops l σ = Some (l', σ') ∧
    l' ≠ l ∧
    σ !! l' = None ∧
    σ' !! l' = Some (Dynamic.fixed (Dynamic.Fixup c)) ∧
    σ' !! l = Some (Dynamic.plain
                      (match Dynamic.moved_from ops with
                       | Some leave => leave c
                       | None => c
                       end)) ∧
    (∀ l0, l0 ≠ l → l0 ≠ l' → σ' !! l0 = σ !! l0) ∧
    (Dynamic.moved_from ops = None →
     Dynamic.new_from_copy l σ = Some (l', σ')).
Proof.
  intros Hl.
  pose proof (fresh_ne σ l _ Hl) as Hne.
  unfold Dynamic.new_from_move, Dynamic.from_move. rewrite Hl.
  destruct (Dynamic.moved_from ops) as [leave|] eqn:Hmv;
    eexists _, _; (split; [reflexivity|]);
    (split; [exact Hne|]); (split; [apply fresh_lookup|]);
    (split; [apply lookup_insert_eq|]).
  - split; [by rewrite lookup_insert_ne, lookup_insert_eq|].
    split; [|discriminate].
    intros l0 H0 H0'. by rewrite !lookup_insert_ne.
  - split; [by rewrite lookup_insert_ne, lookup_insert_eq|].
    split; [intros l0 H0 H0'; by rewrite !lookup_insert_ne|].
    intros _. rewrite (new_from_copy_plain σ l c Hl).
    by rewrite (insert_id σ l _ Hl).
Qed.

(** The counting cursor has no move constructor. *)
Lemma moving_constructor_effect_witness :
  ∃ l' σ',
    Dynamic.new_from_move Dynamic.counting_ops 0
      {[ 0 := Dynamic.plain 5 ]} = Some (l', σ') ∧
    l' ≠ 0 ∧
    σ' !! l' = Some (Dynamic.fixed (Dynamic.Fixup 5)) ∧
    σ' !! 0 = Some (Dynamic.plain 5).
Proof.
  destruct (moving_constructor_effect Dynamic.counting_ops
              {[ 0 := Dynamic.plain 5 ]} 0 5 (lookup_singleton_eq _ _))
    as (l' & σ' & Hnew & Hne & _ & Hw & Hc & _).
  exists l', σ'. split; [exact Hnew|]. split; [exact Hne|].
  split; [exact Hw|exact Hc].
Defined.

(** ** The example cursors *)

Lemma rvalue_iterator_run prog (it : Dynamic.rvalue_iterator) :
  (Dynamic.run Dynamic.rvalue_iterator_ops prog it).1 = it ∧
  ∀ v, Dynamic.ev_star v
         ∈ (Dynamic.run Dynamic.rvalue_iterator_ops prog it).2 → v = 1%Z.
Proof.
  induction prog as [|s prog [IHst IHev]]; simpl.
  - split; [done|]. intros v Hv. by apply elem_of_nil in Hv.
  - assert (Dynamic.exec Dynamic.rvalue_iterator_ops s it
            = (it, (Dynamic.exec Dynamic.rvalue_iterator_ops s it).2)) as ->
      by (by destruct s as [| |[|]]).
    destruct (Dynamic.run Dynamic.rvalue_iterator_ops prog it)
      as [it2 es] eqn:Hrun. simpl in *.
    split; [done|]. intros v Hv.
    apply elem_of_cons in Hv as [Hv|Hv]; [|by apply IHev].
    destruct s as [| |[|]]; simpl in Hv; by inversion Hv.
Qed.

(** X11: the example cursor [rvalue_iterator] never moves.  Whatever
    reads and advances run on it or on its wrapper, the object is left
    as it was, every [*it] returns 1, and it still compares equal, and
    not unequal, to every other [rvalue_iterator]. *)
Theorem rvalue_iterator_stationary prog (it other : Dynamic.rvalue_iterator) :
  let w := Dynamic.fixup_iterator Dynamic.rvalue_iterator_ops it in
  let w' := (Dynamic.run (Dynamic.fixup_ops Dynamic.rvalue_iterator_ops)
               prog w).1 in
  (Dynamic.run Dynamic.rvalue_iterator_ops prog it).1 = it ∧
  w' = w ∧
  (∀ v, Dynamic.ev_star v
          ∈ (Dynamic.run (Dynamic.fixup_ops Dynamic.rvalue_iterator_ops)
               prog w).2 → v = 1%Z) ∧
  Dynamic.equal (Dynamic.fixup_ops Dynamic.rvalue_iterator_ops) w'
    (Dynamic.Fixup other) = true ∧
  Dynamic.not_equal (Dynamic.fixup_ops Dynamic.rvalue_iterator_ops) w'
    (Dynamic.Fixup other) = false.
Proof.
  cbv zeta. rewrite run_fixup.
  rewrite fixup_iterator_from_copy. cbn [Dynamic.base Dynamic.from_copy fst snd].
  destruct (rvalue_iterator_run prog it) as [Hst Hev].
  rewrite Hst. by repeat split.
Qed.

Lemma pointer_rvalue_iterator_run prog (it : Dynamic.pointer_rvalue_iterator) :
  (Dynamic.run Dynamic.pointer_rvalue_iterator_ops prog it).1 = it ∧
  ∀ v, Dynamic.ev_star v
         ∈ (Dynamic.run Dynamic.pointer_rvalue_iterator_ops prog it).2 →
       v = Dynamic.xp it.
Proof.
  induction prog as [|s prog [IHst IHev]]; simpl.
  - split; [done|]. intros v Hv. by apply elem_of_nil in Hv.
  - assert (Dynamic.exec Dynamic.pointer_rvalue_iterator_ops s it
            = (it, (Dynamic.exec Dynamic.pointer_rvalue_iterator_ops s it).2))
      as -> by (by destruct s as [| |[|]]).
    destruct (Dynamic.run Dynamic.pointer_rvalue_iterator_ops prog it)
      as [it2 es] eqn:Hrun. simpl in *.
    split; [done|]. intros v Hv.
    apply elem_of_cons in Hv as [Hv|Hv]; [|by apply IHev].
    destruct s as [| |[|]]; simpl in Hv; by inversion Hv.
Qed.

(** X12: the example cursor [pointer_rvalue_iterator] never moves
    either: its wrapper is left as it was by every program, and every
    [*it] returns the pointer [x] the cursor was created with. *)
Theorem pointer_rvalue_iterator_stationary prog
    (it : Dynamic.pointer_rvalue_iterator) :
  let w := Dynamic.fixup_iterator Dynamic.pointer_rvalue_iterator_ops it in
  (Dynamic.run (Dynamic.fixup_ops Dynamic.pointer_rvalue_iterator_ops)
     prog w).1 = w ∧
  ∀ v, Dynamic.ev_star v
         ∈ (Dynamic.run (Dynamic.fixup_ops Dynamic.pointer_rvalue_iterator_ops)
              prog w).2 →
       v = Dynamic.xp it.
Proof.
  cbv zeta. rewrite run_fixup.
  rewrite fixup_iterator_from_copy. cbn [Dynamic.base Dynamic.from_copy fst snd].
  destruct (pointer_rvalue_iterator_run prog it) as [Hst Hev].
  rewrite Hst. by split.
Qed.

(** ** Cursor classes that already conform *)

(** X13: for a cursor class that declares all five typedefs, with
    [reference] and [pointer] equal to the return types of its
    [operator*] and [operator->], the specialisation declares the very
    same five types: the fix-up changes nothing. *)
Theorem fixup_of_conforming_class env IterTy b v d r p c :
  class_of env (remove_cv_t IterTy) = inr b →
  td_value_type b = Some v →
  td_difference_type b = Some d →
  td_reference b = Some r →
  td_pointer b = Some p →
  td_iterator_category b = Some c →
  op_deref b = td_reference b →
  op_arrow b = td_pointer b →
  ∃ cls,
    class_of env (TFixup IterTy) = inr cls ∧
    td_value_type cls = td_value_type b ∧
    td_difference_type cls = td_difference_type b ∧
    td_reference cls = td_reference b ∧
    td_pointer cls = td_pointer b ∧
    td_iterator_category cls = td_iterator_category b.
Proof.
  intros Hb Hv Hd Hr Hp Hc Hstar Harrow.
  rewrite Hr in Hstar. rewrite Hp in Harrow.
  eexists.
  split; [exact (class_of_fixup_intro env IterTy b r p Hb Hstar Harrow)|].
  simpl. unfold inferred_value_type, inferred_difference_type,
    inferred_iterator_category.
  by rewrite Hv, Hd, Hr, Hp, Hc.
Qed.

(** [iterator_fixup<bare_iterator>] conforms, so fixing it up again
    keeps its typedefs. *)
Lemma fixup_of_conforming_class_witness :
  ∃ b cls,
    class_of examples (TFixup (TClass "bare_iterator")) = inr b ∧
    class_of examples (TFixup (TFixup (TClass "bare_iterator"))) = inr cls ∧
    td_value_type cls = td_value_type b ∧
    td_difference_type cls = td_difference_type b ∧
    td_reference cls = td_reference b ∧
    td_pointer cls = td_pointer b ∧
    td_iterator_category cls = td_iterator_category b.
Proof.
  eexists. 
  destruct (fixup_of_conforming_class examples
              (TFixup (TClass "bare_iterator")) _
              (TConst TInt) TPtrdiff (TLRef (TConst TInt))
              (TPtr (TConst TInt)) (TTag input_iterator_tag)
              eq_refl eq_refl eq_refl eq_refl eq_refl eq_refl
              eq_refl eq_refl) as (cls & Hcls & H).
  exists cls. split; [reflexivity|]. split; [exact Hcls|exact H].
Defined.
